(** * cloudmarker: worker functions and the Azure web app TLS event plugin

    A shallow embedding of [cloudmarker/workers.py] and
    [cloudmarker/events/azwebapptlsevent.py].

    - Python values are a small inductive type; dictionaries live in a
      store and are passed by reference, as in Python.
    - [float(...)] is modelled on IEEE binary64 ([spec_float] with
      precision 53 and maximal exponent 1024).
    - A worker is a program in a small trace monad: it emits the calls it
      makes (logging, queue get and put, plugin methods) and ends by
      returning, by an uncaught exception, or blocked on a queue. *)

From Stdlib Require Import ZArith Ascii String List Bool Lia.
From Stdlib Require Import Floats.SpecFloat.
From stdpp Require Import base option list gmap strings fin_maps.

Local Open Scope string_scope.

(** ** Python values *)

Module Py.

(** Exceptions the modelled code can raise.  [PluginError] stands for any
    exception raised by a plugin body that the workers know nothing of. *)
Inductive exn :=
  | AttributeError
  | TypeError
  | ValueError
  | OverflowError
  | PluginError (msg : string).

(** A fallible computation: a value or the exception raised. *)
Inductive result (A : Type) :=
  | Ok (a : A)
  | Err (e : exn).
Arguments Ok {A} a.
Arguments Err {A} e.

#[global] Instance result_ret : MRet result := fun A a => Ok a.
#[global] Instance result_bind : MBind result := fun A B k m =>
  match m with
  | Ok a => k a
  | Err e => Err e
  end.

(** References to dictionaries in the store. *)
Definition loc := positive.

(** [None], [bool], [int], [float], [str] (ASCII text) and references to
    [dict] objects. *)
Inductive value :=
  | VNone
  | VBool (b : bool)
  | VInt (z : Z)
  | VFloat (f : spec_float)
  | VStr (s : string)
  | VRef (l : loc).

#[global] Instance exn_eq_dec : EqDecision exn.
Proof. solve_decision. Defined.
#[global] Instance spec_float_eq_dec : EqDecision spec_float.
Proof. solve_decision. Defined.
#[global] Instance value_eq_dec : EqDecision value.
Proof. solve_decision. Defined.

(** [v is None] *)
Definition is_none (v : value) : bool :=
  match v with
  | VNone => true
  | _ => false
  end.

(** [v != s] for a string literal [s]: only an equal [str] compares equal. *)
Definition ne_str (v : value) (s : string) : bool :=
  match v with
  | VStr s' => negb (String.eqb s' s)
  | _ => true
  end.

(** The store: every [dict] object, by reference.  Keys are strings. *)
Abbreviation pydict := (gmap string value).
Abbreviation heap := (gmap loc (gmap string value)).

(** A dict display [{...}] or any call that builds a new dict: the object
    is put at a reference the store does not hold yet. *)
Definition alloc (h : heap) (d : pydict) : loc * heap :=
  let l := fresh (dom h) in (l, <[l := d]> h).

(** [v.get(k)]: attribute access fails with [AttributeError] on everything
    that is not a dict ([None], numbers, strings; a reference the store
    does not hold denotes no dict either); on a dict, the value at [k],
    or [None] when [k] is absent. *)
Definition dict_get (h : heap) (v : value) (k : string) : result value :=
  match v with
  | VRef l =>
      match h !! l with
      | Some d => Ok (default VNone (d !! k))
      | None => Err AttributeError
      end
  | _ => Err AttributeError
  end.

End Py.

(** ** [float(x)] on binary64 *)

Module PyFloat.
Import Py.

Local Open Scope Z_scope.

Definition prec : Z := 53.
Definition emax : Z := 1024.

Definition flt (x y : spec_float) : bool := SFltb x y.

(** C-locale [isspace]: tab, newline, vertical tab, form feed, carriage
    return, space. *)
Definition is_space (c : ascii) : bool :=
  let n := Z.of_nat (nat_of_ascii c) in
  ((9 <=? n) && (n <=? 13)) || (n =? 32).

Definition digit_of (c : ascii) : option Z :=
  let n := Z.of_nat (nat_of_ascii c) in
  if (48 <=? n) && (n <=? 57) then Some (n - 48) else None.

Definition is_digit (c : ascii) : bool :=
  match digit_of c with Some _ => true | None => false end.

Definition is_underscore (c : ascii) : bool := Ascii.eqb c "_"%char.

(** Underscores are legal only between two digits; they are dropped.
    [prev] is the previous character of the input. *)
Fixpoint drop_underscores (prev : option ascii) (l : list ascii)
  : option (list ascii) :=
  match l with
  | [] =>
      match prev with
      | Some p => if is_underscore p then None else Some []
      | None => Some []
      end
  | c :: rest =>
      if is_underscore c then
        match prev with
        | Some p => if is_digit p then drop_underscores (Some c) rest else None
        | None => None
        end
      else
        let bad :=
          match prev with
          | Some p => is_underscore p && negb (is_digit c)
          | None => false
          end in
        if bad then None
        else (fun r => c :: r) <$> drop_underscores (Some c) rest
  end.

Fixpoint lstrip (l : list ascii) : list ascii :=
  match l with
  | c :: rest => if is_space c then lstrip rest else l
  | [] => []
  end.

Definition strip (l : list ascii) : list ascii :=
  rev (lstrip (rev (lstrip l))).

(** A maximal run of digits: its value continuing [acc], its length and
    what follows it. *)
Fixpoint digits (l : list ascii) (acc : Z) (n : Z) : Z * Z * list ascii :=
  match l with
  | c :: rest =>
      match digit_of c with
      | Some d => digits rest (10 * acc + d) (n + 1)
      | None => (acc, n, l)
      end
  | [] => (acc, n, [])
  end.

Definition sign (l : list ascii) : bool * list ascii :=
  match l with
  | "-"%char :: rest => (true, rest)
  | "+"%char :: rest => (false, rest)
  | _ => (false, l)
  end.

Definition lower (c : ascii) : ascii :=
  let n := nat_of_ascii c in
  if (65 <=? n)%nat && (n <=? 90)%nat then ascii_of_nat (n + 32) else c.

Definition lower_string (l : list ascii) : string :=
  string_of_list_ascii (map lower l).

(** The decimal numeral [m * 10^e], [m >= 0], correctly rounded to the
    nearest binary64 (ties to even); too large a value gives infinity, too
    small a value zero. *)
Definition of_decimal (m e : Z) : spec_float :=
  match m with
  | Zpos p =>
      if 0 <=? e then binary_normalize prec emax (Zpos p * 10 ^ e) 0 false
      else
        match 10 ^ (- e) with
        | Zpos q => SFdiv prec emax (S754_finite false p 0) (S754_finite false q 0)
        | _ => S754_nan
        end
  | _ => S754_zero false
  end.

Definition with_sign (neg : bool) (f : spec_float) : spec_float :=
  if neg then SFopp f else f.

(** The exponent part: empty, or [e]/[E], an optional sign and at least
    one digit, up to the end of the text. *)
Definition exponent (l : list ascii) : option Z :=
  match l with
  | [] => Some 0
  | c :: rest =>
      if Ascii.eqb (lower c) "e"%char then
        let '(neg, rest1) := sign rest in
        match digits rest1 0 0 with
        | (x, n, []) => if 0 <? n then Some (if neg then - x else x) else None
        | _ => None
        end
      else None
  end.

(** [digits [. digits]] or [. digits], with at least one digit, then the
    exponent part. *)
Definition number (l : list ascii) : option spec_float :=
  let '(m1, n1, rest1) := digits l 0 0 in
  let '(m, n2, rest2) :=
    match rest1 with
    | "."%char :: frac => digits frac m1 0
    | _ => (m1, 0, rest1)
    end in
  if 0 <? n1 + n2 then
    x ← exponent rest2; Some (of_decimal m (x - n2))
  else None.

Definition inf_or_nan (l : list ascii) : option spec_float :=
  let s := lower_string l in
  if String.eqb s "inf" || String.eqb s "infinity" then Some (S754_infinity false)
  else if String.eqb s "nan" then Some S754_nan
  else None.

(** [float(s)] for a string: underscores between digits are dropped,
    surrounding white space is stripped, and what is left must be a
    signed decimal numeral, infinity or nan; otherwise [ValueError]. *)
Definition parse (s : string) : option spec_float :=
  l ← drop_underscores None (list_ascii_of_string s);
  let '(neg, body) := sign (strip l) in
  with_sign neg <$>
    match number body with
    | Some f => Some f
    | None => inf_or_nan body
    end.

(** [float(n)] for an integer: the nearest binary64, [OverflowError]
    when it is out of range. *)
Definition of_int (z : Z) : result spec_float :=
  match binary_normalize prec emax z 0 false with
  | S754_infinity _ => Err OverflowError
  | f => Ok f
  end.

Definition py_float (v : value) : result spec_float :=
  match v with
  | VFloat f => Ok f
  | VInt z => of_int z
  | VBool b => of_int (if b then 1 else 0)
  | VStr s =>
      match parse s with
      | Some f => Ok f
      | None => Err ValueError
      end
  | VNone | VRef _ => Err TypeError
  end.

End PyFloat.

(** ** Worker functions *)

Module Workers.
Import Py.
Local Open Scope list_scope.

(** Output queues are told apart by an identifier; a list of output
    queues may name the same queue object more than once. *)
Definition qid := nat.

(** What a worker does that the outside can see, in the order it does it. *)
Inductive event :=
  | Log (fmt arg : string)     (* [_logger.info(fmt, arg)] *)
  | Get (v : value)            (* [input_queue.get()] returned [v] *)
  | Put (q : qid) (v : value)  (* [q.put(v)] *)
  | CallRead                   (* [plugin.read()] *)
  | CallEval (r : value)       (* [plugin.eval(r)] *)
  | CallWrite (r : value)      (* [plugin.write(r)] *)
  | CallDone                   (* [plugin.done()] *)
  | Yield (v : value)          (* the iterated generator produced [v] *)
  | Raise (e : exn).           (* a plugin method raised [e] *)

#[global] Instance event_eq_dec : EqDecision event.
Proof. solve_decision. Defined.

(** How a run ends: the function returns, an exception leaves it, or it
    waits forever on a queue that delivers nothing more. *)
Inductive outcome (A : Type) :=
  | Returned (a : A)
  | Raised (e : exn)
  | Blocked.
Arguments Returned {A} a.
Arguments Raised {A} e.
Arguments Blocked {A}.

Definition prog (A : Type) : Type := list event * outcome A.

Definition trace {A} (p : prog A) : list event := p.1.
Definition ending {A} (p : prog A) : outcome A := p.2.

#[global] Instance prog_ret : MRet prog := fun A a => ([], Returned a).
#[global] Instance prog_bind : MBind prog := fun A B k m =>
  match m.2 with
  | Returned a => (m.1 ++ (k a).1, (k a).2)
  | Raised e => (m.1, Raised e)
  | Blocked => (m.1, Blocked)
  end.

Definition emit (e : event) : prog unit := ([e], Returned tt).
Definition raise {A} (e : exn) : prog A := ([Raise e], Raised e).
Definition block {A} : prog A := ([], Blocked).

(** A method that returns nothing: it ends normally or raises. *)
Definition finish (r : option exn) : prog unit :=
  match r with
  | None => mret tt
  | Some e => raise e
  end.

(** [for x in l: body(x)] over a list. *)
Fixpoint for_ {A} (l : list A) (body : A -> prog unit) : prog unit :=
  match l with
  | [] => mret tt
  | x :: rest => body x ≫= λ _, for_ rest body
  end.

(** A generator that has run: what it yielded, and the exception that
    ended it if one did.  A generator is lazy: each value reaches the loop
    body before the next one is computed, so what was yielded before an
    exception has been processed when the exception surfaces. *)
Definition generator : Type := list value * option exn.

(** [for x in g: body(x)] over a generator. *)
Definition iterate (g : generator) (body : value -> prog unit) : prog unit :=
  for_ g.1 (λ x, emit (Yield x) ≫= λ _, body x) ≫= λ _, finish g.2.

(** The methods the workers call on a plugin object.  A plugin is an
    object with state of its own: every method takes the state and returns
    the state it leaves. *)
Class HasDone (S : Type) := done : S -> S * option exn.
Class Producer (S : Type) := read : S -> S * generator.
Class Transform (S : Type) := eval : S -> value -> S * generator.
Class Consumer (S : Type) := write : S -> value -> S * option exn.

Section Functions.
Context {S : Type}.

Definition info (fmt arg : string) : prog unit := emit (Log fmt arg).
Definition put (record : value) (q : qid) : prog unit := emit (Put q record).

Definition call_done `{HasDone S} (plugin : S) : prog S :=
  emit CallDone ≫= λ _,
  let '(plugin', r) := done plugin in
  finish r ≫= λ _, mret plugin'.

Definition cloud_worker `{Producer S, HasDone S}
    (worker_name : string) (cloud_plugin : S) (output_queues : list qid)
  : prog unit :=
  info "%s: Started" worker_name ≫= λ _,
  emit CallRead ≫= λ _,
  let '(cloud_plugin, records) := read cloud_plugin in
  iterate records (λ record, for_ output_queues (put record)) ≫= λ _,
  call_done cloud_plugin ≫= λ _,
  info "%s: Stopped" worker_name.

(** The [while True] loop of [store_worker].  [input_queue] holds the
    items the queue will ever deliver, in order; when they are used up,
    [get] never returns. *)
Fixpoint store_loop `{Consumer S, HasDone S}
    (store_plugin : S) (input_queue : list value) : prog unit :=
  match input_queue with
  | [] => block
  | record :: input_queue =>
      emit (Get record) ≫= λ _,
      if is_none record then
        call_done store_plugin ≫= λ _, mret tt
      else
        emit (CallWrite record) ≫= λ _,
        let '(store_plugin, r) := write store_plugin record in
        finish r ≫= λ _,
        store_loop store_plugin input_queue
  end.

Definition store_worker `{Consumer S, HasDone S}
    (worker_name : string) (store_plugin : S) (input_queue : list value)
  : prog unit :=
  info "%s: Started" worker_name ≫= λ _,
  store_loop store_plugin input_queue ≫= λ _,
  info "%s: Stopped" worker_name.

(** The [while True] loop of [check_worker]. *)
Fixpoint check_loop `{Transform S, HasDone S}
    (check_plugin : S) (input_queue : list value) (output_queues : list qid)
  : prog unit :=
  match input_queue with
  | [] => block
  | record :: input_queue =>
      emit (Get record) ≫= λ _,
      if is_none record then
        call_done check_plugin ≫= λ _, mret tt
      else
        emit (CallEval record) ≫= λ _,
        let '(check_plugin, event_records) := eval check_plugin record in
        iterate event_records
          (λ event_record, for_ output_queues (put event_record)) ≫= λ _,
        check_loop check_plugin input_queue output_queues
  end.

Definition check_worker `{Transform S, HasDone S}
    (worker_name : string) (check_plugin : S) (input_queue : list value)
    (output_queues : list qid) : prog unit :=
  info "%s: Started" worker_name ≫= λ _,
  check_loop check_plugin input_queue output_queues ≫= λ _,
  info "%s: Stopped" worker_name.
End Functions.

(** *** What a trace shows *)

(** The items put into queue [q], in order. *)
Definition puts_to (q : qid) (t : list event) : list value :=
  omap (λ ev, match ev with
              | Put q' v => if decide (q' = q) then Some v else None
              | _ => None
              end) t.

(** The items read from the input queue, in order. *)
Definition gets (t : list event) : list value :=
  omap (λ ev, match ev with Get v => Some v | _ => None end) t.

(** The number of calls of [done]. *)
Definition count_done (t : list event) : nat :=
  length (omap (λ ev, match ev with CallDone => Some tt | _ => None end) t).

Definition started (worker_name : string) : event := Log "%s: Started" worker_name.
Definition stopped (worker_name : string) : event := Log "%s: Stopped" worker_name.

(** Some plugin method raised during the run. *)
Definition raised_in (t : list event) : Prop := ∃ e, Raise e ∈ t.

(** The event records [eval] yields while [check_worker] runs on
    [input_queue]: record by record up to the first [None], and up to the
    first exception. *)
Fixpoint produced {S} `{Transform S} (check_plugin : S) (input_queue : list value)
  : list value :=
  match input_queue with
  | [] => []
  | record :: input_queue =>
      if is_none record then []
      else
        let '(check_plugin, event_records) := eval check_plugin record in
        event_records.1 ++
          match event_records.2 with
          | None => produced check_plugin input_queue
          | Some _ => []
          end
  end.

(** *** The shape of a run *)

(** The trace of a fan-out loop: every yielded record, followed by one put
    per output queue, in the order of the queues. *)
Definition fanout (qs : list qid) (ys : list value) : list event :=
  ys ≫= λ y, Yield y :: ((λ q, Put q y) <$> qs).

Definition exn_trace (r : option exn) : list event :=
  match r with
  | None => []
  | Some e => [Raise e]
  end.

Definition exn_ending (r : option exn) : outcome unit :=
  match r with
  | None => Returned tt
  | Some e => Raised e
  end.

(** What is left of [cloud_worker] once the generator is used up. *)
Definition cloud_tail (worker_name : string) (r d : option exn) : list event :=
  match r with
  | Some e => [Raise e]
  | None =>
      CallDone ::
        match d with
        | Some e => [Raise e]
        | None => [stopped worker_name]
        end
  end.

Definition cloud_ending (r d : option exn) : outcome unit :=
  match r with
  | Some e => Raised e
  | None => exn_ending d
  end.

(** Events of a loop body: calls of [write] and [eval], yields and puts. *)
Definition quiet (ev : event) : Prop :=
  match ev with
  | CallWrite _ | CallEval _ | Yield _ | Put _ _ => True
  | _ => False
  end.

(** The runs of a [while True] loop that reads [input_queue]: blocked on
    the empty queue; [None] read, [done] called, loop left; a record read
    and the body raising; a record read, the body run, and the loop going
    on. *)
Inductive loop_run : list value → list event → outcome unit → Prop :=
  | loop_blocked :
      loop_run [] [] Blocked
  | loop_sentinel record rest d :
      is_none record = true →
      loop_run (record :: rest) (Get record :: CallDone :: exn_trace d) (exn_ending d)
  | loop_raise record rest body e :
      is_none record = false → Forall quiet body →
      loop_run (record :: rest) (Get record :: body ++ [Raise e]) (Raised e)
  | loop_step record rest body t o :
      is_none record = false → Forall quiet body →
      loop_run rest t o →
      loop_run (record :: rest) (Get record :: body ++ t) o.

(** A worker that reads a queue: the start log, the loop, and the stop log
    when the loop is left normally. *)
Definition stop_log (worker_name : string) (o : outcome unit) : list event :=
  match o with
  | Returned _ => [stopped worker_name]
  | _ => []
  end.

Definition reader_run (worker_name : string) (input_queue : list value)
    (p : prog unit) : Prop :=
  ∃ t, loop_run input_queue t (ending p)
       ∧ trace p = started worker_name :: t ++ stop_log worker_name (ending p).

(** The plugin after [check_worker] has gone through the records [pre]:
    none of them [None], [eval] raising on none of them. *)
Fixpoint evaluated {S} `{Transform S} (check_plugin : S) (pre : list value)
  : option S :=
  match pre with
  | [] => Some check_plugin
  | record :: pre =>
      if is_none record then None
      else
        let '(check_plugin, event_records) := eval check_plugin record in
        match event_records.2 with
        | None => evaluated check_plugin pre
        | Some _ => None
        end
  end.

(** *** Statements about runs *)

(** [done] is called at most once; once [None] has been read it has been
    called exactly once, and what was read is the records before the first
    [None] of the queue and that [None], whatever follows it.  With a
    [None] in the queue and no exception, the [None] is read. *)
Definition stops_at_sentinel (input_queue : list value) (t : list event) : Prop :=
  (count_done t ≤ 1)%nat
  ∧ (Get VNone ∈ t →
       count_done t = 1
       ∧ ∃ pre post, input_queue = pre ++ VNone :: post ∧ (VNone ∉ pre)
                     ∧ gets t = pre ++ [VNone])
  ∧ (VNone ∈ input_queue → ¬ raised_in t → Get VNone ∈ t).

(** The start log comes first; an exception of a plugin method leaves the
    worker and no stop is logged; a stop log is the last event, right after
    the call of [done]. *)
Definition log_discipline (worker_name : string) (p : prog unit) : Prop :=
  (∃ t, trace p = started worker_name :: t)
  ∧ (∀ e, Raise e ∈ trace p →
          ending p = Raised e ∧ stopped worker_name ∉ trace p)
  ∧ (stopped worker_name ∈ trace p →
       ∃ t, trace p = t ++ [CallDone; stopped worker_name]).

Definition stop_iff_no_exception (worker_name : string) (p : prog unit) : Prop :=
  stopped worker_name ∈ trace p ↔ ¬ raised_in (trace p).

(** *** More of what a trace shows *)

(** The records handed to [write], and to [eval], in order. *)
Definition writes (t : list event) : list value :=
  omap (λ ev, match ev with CallWrite r => Some r | _ => None end) t.

Definition evals (t : list event) : list value :=
  omap (λ ev, match ev with CallEval r => Some r | _ => None end) t.

(** Every put of the run, queue and item, in the order they are made. *)
Definition all_puts (t : list event) : list (qid * value) :=
  omap (λ ev, match ev with Put q v => Some (q, v) | _ => None end) t.

(** The puts a fan-out makes for the items [ys]: item by item, and for
    each item queue by queue in the order of [output_queues]. *)
Definition replicated (output_queues : list qid) (ys : list value)
  : list (qid * value) :=
  ys ≫= λ y, (λ q, (q, y)) <$> output_queues.

(** The items of a queue that come before its first [None]. *)
Fixpoint before_none (items : list value) : list value :=
  match items with
  | [] => []
  | v :: items => if is_none v then [] else v :: before_none items
  end.

(** *** The plugin along a run *)

(** The plugin after [store_worker] has gone through the records [pre]:
    none of them [None], [write] raising on none of them. *)
Fixpoint written {S} `{Consumer S} (store_plugin : S) (pre : list value)
  : option S :=
  match pre with
  | [] => Some store_plugin
  | record :: pre =>
      if is_none record then None
      else
        let '(store_plugin, r) := write store_plugin record in
        match r with
        | None => written store_plugin pre
        | Some _ => None
        end
  end.

(** Events of the loop before [None] is read and while nothing raises:
    reads, calls of [write] and [eval], yields and puts. *)
Definition calm (ev : event) : Prop :=
  match ev with
  | Get _ | CallWrite _ | CallEval _ | Yield _ | Put _ _ => True
  | _ => False
  end.

(** What follows the call of [done] in a worker: the exception [done]
    raised, or the stop log. *)
Definition after_done (worker_name : string) (d : option exn) : list event :=
  match d with
  | Some e => [Raise e]
  | None => [stopped worker_name]
  end.

(** [done] is called at most once, and not before [None] has been read;
    once [None] has been read, the run is: the reads of the records queued
    before the first [None], with no call of [done]; the read of that
    [None]; the call of [done]; and then only the exception [done] raised
    or the stop log, so nothing more is read. *)
Definition done_at_sentinel (worker_name : string) (input_queue : list value)
    (t : list event) : Prop :=
  (count_done t ≤ 1)%nat
  ∧ (Get VNone ∉ t → count_done t = 0%nat)
  ∧ (Get VNone ∈ t →
     ∃ pre post t1 d,
       input_queue = pre ++ VNone :: post ∧ (VNone ∉ pre)
       ∧ t = started worker_name :: t1
               ++ Get VNone :: CallDone :: after_done worker_name d
       ∧ gets t1 = pre ∧ count_done t1 = 0%nat).

End Workers.

(** ** The Azure web app minimum TLS version event plugin *)

Module AzWebAppTLSEvent.
Import Py PyFloat Workers.

(** Plugin code runs on the store and may fail: a state and error monad. *)
Definition st (A : Type) : Type := heap -> result A * heap.

#[global] Instance st_ret : MRet st := fun A a h => (Ok a, h).
#[global] Instance st_bind : MBind st := fun A B k m h =>
  match m h with
  | (Ok a, h') => k a h'
  | (Err e, h') => (Err e, h')
  end.

Definition lift {A} (r : result A) : st A := fun h => (r, h).

(** [v.get(k)] *)
Definition get_ (v : value) (k : string) : st value :=
  fun h => (dict_get h v k, h).

(** A dict display: a new object. *)
Definition new_dict (d : pydict) : st value :=
  fun h => let '(l, h') := alloc h d in (Ok (VRef l), h').

(** The literal [1.2]: the binary64 nearest to it. *)
Definition default_min_tls_version : spec_float :=
  S754_finite false 5404319552844595 (-52).

Definition web_app_config : string := "web_app_config".
Definition web_app_tls_event : string := "web_app_tls_event".

(** Modelled from the spec: [util.merge_dicts] is not part of the sources.
    The spec gives its merge semantics as: shallow copy of original keys,
    then apply overrides; original bucket is not mutated, a new mapping is
    produced.  The result is a new object holding the overrides and, for
    every other key, the original's value.  The spec says nothing of
    arguments that are not mappings; the model fails on them, and [eval]
    never gets there (the [ext] bucket has answered [get] before). *)
Definition merge_dicts (original overrides : value) : st value :=
  fun h =>
    match original, overrides with
    | VRef lo, VRef lv =>
        match h !! lo, h !! lv with
        | Some d, Some o => new_dict (o ∪ d) h
        | _, _ => (Err TypeError, h)
        end
    | _, _ => (Err TypeError, h)
    end.

(** A record in the store, and a bucket of it: both are dicts held by
    reference. *)
Definition is_record (h : heap) (record : value) (d : pydict) : Prop :=
  ∃ l, record = VRef l ∧ h !! l = Some d.

Definition has_bucket (h : heap) (d : pydict) (k : string) (b : pydict) : Prop :=
  ∃ l, d !! k = Some (VRef l) ∧ h !! l = Some b.

(** [d.get(k)] on a dict that is at hand. *)
Definition field (d : pydict) (k : string) : value := default VNone (d !! k).

Section Plugin.
(** [util.friendly_string] is not part of the sources and the spec does
    not describe it: it is a parameter, any function that returns a value
    or raises.  So is the text [str.format] produces for a value. *)
Variable friendly_string : value -> result value.
Variable py_str : heap -> value -> string.

Definition format1 (v : value) : st string := fun h => (Ok (py_str h v), h).

Definition _get_azure_web_app_tls_event
    (com ext : value) (min_tls_version : spec_float) : st (list value) :=
  cloud_type ← get_ com "cloud_type";
  friendly_cloud_type ← lift (friendly_string cloud_type);
  reference ← get_ com "reference";
  s_type ← format1 friendly_cloud_type;
  s_ref ← format1 reference;
  s_min ← format1 (VFloat min_tls_version);
  let description :=
    s_type +:+ " web app " +:+ s_ref
      +:+ " has insecure minimum TLS version." in
  let recommendation :=
    "Check " +:+ s_type +:+ " web app " +:+ s_ref
      +:+ " and ensure the minimum TLS version is set to " +:+ s_min +:+ "." in
  overrides ← new_dict {[ "record_type" := VStr web_app_tls_event ]};
  event_ext ← merge_dicts ext overrides;
  cloud_type' ← get_ com "cloud_type";
  event_com ← new_dict
    (<[ "cloud_type" := cloud_type' ]>
     (<[ "record_type" := VStr web_app_tls_event ]>
     (<[ "reference" := reference ]>
     (<[ "description" := VStr description ]>
     (<[ "recommendation" := VStr recommendation ]> ∅)))));
  event_record ← new_dict
    (<[ "ext" := event_ext ]> (<[ "com" := event_com ]> ∅));
  mret [event_record].

(** The body of the generator [eval]: the records it yields.  [self] is
    the plugin's [_min_tls_version]. *)
Definition eval_body (self : spec_float) (record : value) : st (list value) :=
  com ← get_ record "com";
  ext ← get_ record "ext";
  if is_none ext then mret []
  else
    record_type ← get_ ext "record_type";
    if ne_str record_type web_app_config then mret []
    else
      min_tls_version ← get_ ext "min_tls_version";
      x ← lift (py_float min_tls_version);
      if flt x self then _get_azure_web_app_tls_event com ext self
      else mret [].

(** The plugin object: its threshold, and the store its code runs on. *)
Record plugin := Plugin { _min_tls_version : spec_float; store : heap }.

(** [eval] as the worker sees it: every exception of the body comes
    before its only [yield]. *)
Definition eval (self : plugin) (record : value) : plugin * generator :=
  match eval_body (_min_tls_version self) record (store self) with
  | (Ok event_records, h) => (Plugin (_min_tls_version self) h, (event_records, None))
  | (Err e, h) => (Plugin (_min_tls_version self) h, ([], Some e))
  end.

(** [done] does nothing. *)
Definition done (self : plugin) : plugin * option exn := (self, None).

#[global] Instance transform : Transform plugin := eval.
#[global] Instance has_done : HasDone plugin := done.
End Plugin.

End AzWebAppTLSEvent.


(** ** Small plugins and records to run the workers on *)

Module Examples.
Import Py PyFloat Workers AzWebAppTLSEvent.
Local Open Scope list_scope.

(** A cloud plugin that yields the records it holds. *)
Record listing := Listing { listed : list value }.
#[global] Instance listing_read : Producer listing :=
  λ s, (s, (listed s, None)).
#[global] Instance listing_done : HasDone listing := λ s, (s, None).

(** A store plugin that keeps what it is given. *)
Record collector := Collector { collected : list value }.
#[global] Instance collector_write : Consumer collector :=
  λ s record, (Collector (collected s ++ [record]), None).
#[global] Instance collector_done : HasDone collector := λ s, (s, None).

(** A plugin whose cleanup fails. *)
Record leaky := Leaky { written : nat }.
#[global] Instance leaky_write : Consumer leaky :=
  λ s record, (Leaky (S (written s)), None).
#[global] Instance leaky_read : Producer leaky :=
  λ s, (s, ([VInt (Z.of_nat (written s))], None)).
#[global] Instance leaky_done : HasDone leaky :=
  λ s, (s, Some (PluginError "close failed")).

(** A check plugin that numbers the records it sees. *)
Record numbering := Numbering { seen : Z }.
#[global] Instance numbering_eval : Transform numbering :=
  λ s record, (Numbering (seen s + 1), ([VInt (seen s)], None)).
#[global] Instance numbering_done : HasDone numbering := λ s, (s, None).

Definition rec_a : value := VStr "a".
Definition rec_b : value := VStr "b".

(** Web app records.  [app_record v] has an [ext] bucket of record type
    [web_app_config] with [min_tls_version] set to [v], and a [com]
    bucket; [bare_record v] has the same [ext] bucket and no [com]
    bucket. *)
Definition display (v : value) : result value := Ok v.
Definition text (h : heap) (v : value) : string :=
  match v with
  | VStr s => s
  | _ => "?"
  end.

Definition ext_bucket (v : value) : pydict :=
  <["record_type" := VStr "web_app_config"]> (<["min_tls_version" := v]> ∅).
Definition com_bucket : pydict :=
  <["cloud_type" := VStr "azure"]> (<["reference" := VStr "app1"]> ∅).
Definition app_record : pydict :=
  <["ext" := VRef 2%positive]> (<["com" := VRef 3%positive]> ∅).
Definition bare_record : pydict := <["ext" := VRef 2%positive]> ∅.

Definition app_store (v : value) : heap :=
  <[1%positive := app_record]>
  (<[2%positive := ext_bucket v]> (<[3%positive := com_bucket]> ∅)).
Definition bare_store (v : value) : heap :=
  <[1%positive := bare_record]> (<[2%positive := ext_bucket v]> ∅).

(** An [ext] bucket with no [min_tls_version]. *)
Definition unversioned_store : heap :=
  <[1%positive := app_record]>
  (<[2%positive := <["record_type" := VStr "web_app_config"]> ∅]>
  (<[3%positive := com_bucket]> ∅)).

(** A record with a [com] bucket only. *)
Definition extless_store : heap :=
  <[1%positive := <["com" := VRef 3%positive]> ∅]>
  (<[3%positive := com_bucket]> ∅).

Definition the_record : value := VRef 1%positive.

(** A cloud plugin that fails after the records it holds. *)
Record flaky := Flaky { served : list value }.
#[global] Instance flaky_read : Producer flaky :=
  λ s, (s, (served s, Some (PluginError "api down"))).
#[global] Instance flaky_done : HasDone flaky := λ s, (s, None).

(** A record of another type: its [ext] bucket has record type
    [storage_account_config]. *)
Definition other_store : heap :=
  <[1%positive := app_record]>
  (<[2%positive := <["record_type" := VStr "storage_account_config"]>
                   (<["min_tls_version" := VStr "1.0"]> ∅)]>
  (<[3%positive := com_bucket]> ∅)).

(** A record whose [ext] is a string, and one whose [ext] is [None]. *)
Definition text_ext_store : heap :=
  <[1%positive := <["ext" := VStr "n/a"]> ∅]> ∅.
Definition none_ext_store : heap :=
  <[1%positive := <["ext" := VNone]> ∅]> ∅.

(** An insecure web app record at 1, and a record of another type at 4. *)
Definition two_records : heap :=
  <[4%positive := <["ext" := VRef 5%positive]> ∅]>
  (<[5%positive := <["record_type" := VStr "other"]> ∅]>
  (app_store (VStr "1.0"))).

(** A store plugin with room for a number of records: [write] raises
    when there is no room left. *)
Record quota := Quota { room : nat }.
#[global] Instance quota_write : Consumer quota :=
  λ s record,
    match room s with
    | O => (s, Some (PluginError "full"))
    | S n => (Quota n, None)
    end.
#[global] Instance quota_done : HasDone quota := λ s, (s, None).

End Examples.

(** * Properties of the worker functions *)

Module WorkersFacts.
Import Py Workers.
Local Open Scope list_scope.
Local Open Scope nat_scope.

Lemma finish_eq r : finish r = (exn_trace r, exn_ending r).
Proof. by destruct r. Qed.

Lemma for_put_eq record qs :
  for_ qs (put record) = ((λ q, Put q record) <$> qs, Returned tt).
Proof.
  induction qs as [|q qs IH]; [done|].
  simpl. rewrite IH. reflexivity.
Qed.

Lemma for_yield_put_eq ys qs :
  for_ ys (λ x, emit (Yield x) ≫= λ _, for_ qs (put x))
  = (fanout qs ys, Returned tt).
Proof.
  induction ys as [|y ys IH]; [done|].
  cbn [for_]. rewrite IH, for_put_eq. reflexivity.
Qed.

Lemma iterate_fanout_eq ys r qs :
  iterate (ys, r) (λ record, for_ qs (put record))
  = (fanout qs ys ++ exn_trace r, exn_ending r).
Proof.
  unfold iterate. cbn [fst snd].
  rewrite for_yield_put_eq, finish_eq. reflexivity.
Qed.

Lemma call_done_eq {S} `{HasDone S} (s : S) :
  trace (call_done s) = CallDone :: exn_trace (done s).2
  ∧ ending (call_done s ≫= λ _, mret tt) = exn_ending (done s).2
  ∧ trace (call_done s ≫= λ _, mret tt) = CallDone :: exn_trace (done s).2.
Proof.
  unfold call_done. destruct (done s) as [s' [e|]]; done.
Qed.

(** *** Observations distribute over the pieces of a trace *)

Lemma puts_to_app q t1 t2 : puts_to q (t1 ++ t2) = puts_to q t1 ++ puts_to q t2.
Proof. apply omap_app. Qed.

Lemma gets_app t1 t2 : gets (t1 ++ t2) = gets t1 ++ gets t2.
Proof. apply omap_app. Qed.

Lemma count_done_app t1 t2 : count_done (t1 ++ t2) = count_done t1 + count_done t2.
Proof. unfold count_done. by rewrite omap_app, length_app. Qed.

Lemma puts_to_exn q r : puts_to q (exn_trace r) = [].
Proof. by destruct r. Qed.

Lemma gets_exn r : gets (exn_trace r) = [].
Proof. by destruct r. Qed.

Lemma count_done_exn r : count_done (exn_trace r) = 0.
Proof. by destruct r. Qed.

Lemma gets_fanout qs ys : gets (fanout qs ys) = [].
Proof.
  induction ys as [|y ys IH]; [done|].
  unfold fanout in *. cbn [mbind list_bind]. rewrite gets_app, IH, app_nil_r.
  cbn. clear IH. induction qs; done.
Qed.

Lemma count_done_fanout qs ys : count_done (fanout qs ys) = 0.
Proof.
  induction ys as [|y ys IH]; [done|].
  unfold fanout in *. cbn [mbind list_bind]. rewrite count_done_app, IH.
  unfold count_done. cbn. clear IH. induction qs; [done|]. cbn. lia.
Qed.

(** Puts of one record into the queues [qs], seen from queue [q]. *)
Lemma puts_to_row_notin q qs y :
  q ∉ qs → puts_to q ((λ q', Put q' y) <$> qs) = [].
Proof.
  induction qs as [|q' qs IH]; [done|].
  intros [Hne Hq]%not_elem_of_cons. cbn.
  rewrite decide_False by done. by apply IH.
Qed.

Lemma puts_to_row q qs y :
  NoDup qs → q ∈ qs → puts_to q ((λ q', Put q' y) <$> qs) = [y].
Proof.
  induction qs as [|q' qs IH]; [by intros _ ?%elem_of_nil|].
  intros [Hnotin Hnd]%NoDup_cons Hin. cbn.
  destruct (decide (q' = q)) as [->|Hne].
  - f_equal. by apply puts_to_row_notin.
  - apply IH; [done|]. apply elem_of_cons in Hin as [?|?]; congruence.
Qed.

Lemma puts_to_fanout q qs ys :
  NoDup qs → q ∈ qs → puts_to q (fanout qs ys) = ys.
Proof.
  intros Hnd Hin. induction ys as [|y ys IH]; [done|].
  unfold fanout in *. cbn [mbind list_bind].
  rewrite puts_to_app, IH. cbn.
  change (omap _ ((λ q0 : qid, Put q0 y) <$> qs))
    with (puts_to q ((λ q', Put q' y) <$> qs)).
  by rewrite puts_to_row.
Qed.

Lemma put_in_fanout q v qs ys : Put q v ∈ fanout qs ys → v ∈ ys ∧ q ∈ qs.
Proof.
  unfold fanout. intros (y & Hy & Hin)%list_elem_of_bind.
  apply elem_of_cons in Hy as [?|Hy]; [done|].
  apply list_elem_of_fmap in Hy as (q' & [= -> ->] & ?). done.
Qed.

Lemma cloud_worker_eq {S} `{Producer S, HasDone S} name (s : S) qs :
  cloud_worker name s qs
  = (started name :: CallRead :: fanout qs (read s).2.1
       ++ cloud_tail name (read s).2.2 (done (read s).1).2,
     cloud_ending (read s).2.2 (done (read s).1).2).
Proof.
  unfold cloud_worker. destruct (read s) as [s1 [ys r]]. cbn [fst snd].
  unfold info. change (emit (Log "%s: Started" name)) with ([started name], Returned tt).
  unfold mbind at 1 2, prog_bind at 1 2. cbn [fst snd emit].
  rewrite iterate_fanout_eq. unfold call_done.
  destruct r as [e|]; [done|].
  destruct (done s1) as [s2 [e|]]; cbn; by rewrite ?app_nil_r.
Qed.

Lemma quiet_fanout qs ys : Forall quiet (fanout qs ys).
Proof.
  apply Forall_forall. intros ev (y & Hy & _)%list_elem_of_bind.
  apply elem_of_cons in Hy as [->|Hy]; [done|].
  by apply list_elem_of_fmap in Hy as (q & -> & _).
Qed.

Lemma store_loop_run {S} `{Consumer S, HasDone S} (s : S) input :
  loop_run input (trace (store_loop s input)) (ending (store_loop s input)).
Proof.
  revert s. induction input as [|record rest IH]; intros s; [constructor|].
  cbn [store_loop]. destruct (is_none record) eqn:Hnone.
  - unfold call_done. destruct (done s) as [s' d].
    replace (emit (Get record) ≫= _)
      with (Get record :: CallDone :: exn_trace d, exn_ending d)
      by (by destruct d).
    by constructor.
  - destruct (write s record) as [s' [e|]] eqn:Hw.
    + apply (loop_raise record rest [CallWrite record] e); [done|].
      repeat constructor.
    + specialize (IH s').
      replace (emit (Get record) ≫= _)
        with (Get record :: [CallWrite record] ++ trace (store_loop s' rest),
              ending (store_loop s' rest)).
      * apply loop_step; [done| repeat constructor |done].
      * unfold mbind, prog_bind, trace, ending. cbn.
        by destruct (store_loop s' rest) as [t [[]| |]].
Qed.

Lemma check_loop_run {S} `{Transform S, HasDone S} (s : S) input qs :
  loop_run input (trace (check_loop s input qs)) (ending (check_loop s input qs)).
Proof.
  revert s. induction input as [|record rest IH]; intros s; [constructor|].
  cbn [check_loop]. destruct (is_none record) eqn:Hnone.
  - unfold call_done. destruct (done s) as [s' d].
    replace (emit (Get record) ≫= _)
      with (Get record :: CallDone :: exn_trace d, exn_ending d)
      by (by destruct d).
    by constructor.
  - destruct (eval s record) as [s' [ys [e|]]] eqn:He; rewrite iterate_fanout_eq.
    + replace (emit (Get record) ≫= _)
        with (Get record :: (CallEval record :: fanout qs ys) ++ [Raise e],
              @Raised unit e) by done.
      apply loop_raise; [done|]. constructor; [done|apply quiet_fanout].
    + specialize (IH s').
      replace (emit (Get record) ≫= _)
        with (Get record :: (CallEval record :: fanout qs ys)
                ++ trace (check_loop s' rest qs),
              ending (check_loop s' rest qs)).
      * apply loop_step; [done| |done]. constructor; [done|apply quiet_fanout].
      * unfold mbind, prog_bind, trace, ending. cbn. rewrite app_nil_r.
        by destruct (check_loop s' rest qs) as [t [[]| |]].
Qed.

Lemma reader_wrap name input (p : prog unit) :
  loop_run input (trace p) (ending p) →
  reader_run name input
    (info "%s: Started" name ≫= λ _, p ≫= λ _, info "%s: Stopped" name).
Proof.
  intros Hrun. exists (trace p). destruct p as [t o]. cbn in *.
  destruct o as [[]|e|]; cbn; rewrite ?app_nil_r; done.
Qed.

Lemma store_worker_run {S} `{Consumer S, HasDone S} name (s : S) input :
  reader_run name input (store_worker name s input).
Proof. apply reader_wrap, store_loop_run. Qed.

Lemma check_worker_run {S} `{Transform S, HasDone S} name (s : S) input qs :
  reader_run name input (check_worker name s input qs).
Proof. apply reader_wrap, check_loop_run. Qed.

(** *** Facts on loop runs, by induction on the run *)

Lemma is_none_true v : is_none v = true ↔ v = VNone.
Proof. by destruct v. Qed.

Lemma is_none_false v : is_none v = false ↔ v ≠ VNone.
Proof. by destruct v. Qed.

Lemma quiet_count_done body : Forall quiet body → count_done body = 0.
Proof.
  induction 1 as [|ev body Hq _ IH]; [done|].
  unfold count_done in *. by destruct ev.
Qed.

Lemma quiet_gets body : Forall quiet body → gets body = [].
Proof.
  induction 1 as [|ev body Hq _ IH]; [done|].
  unfold gets in *. by destruct ev.
Qed.

Lemma quiet_no_get body v : Forall quiet body → Get v ∉ body.
Proof. intros Hq Hin. by apply (proj1 (Forall_forall _ _) Hq) in Hin. Qed.

Lemma quiet_no_raise body e : Forall quiet body → Raise e ∉ body.
Proof. intros Hq Hin. by apply (proj1 (Forall_forall _ _) Hq) in Hin. Qed.

Lemma quiet_no_log body fmt arg : Forall quiet body → Log fmt arg ∉ body.
Proof. intros Hq Hin. by apply (proj1 (Forall_forall _ _) Hq) in Hin. Qed.

Lemma exn_trace_raise e d : Raise e ∈ exn_trace d ↔ d = Some e.
Proof.
  destruct d as [e'|]; cbn.
  - rewrite list_elem_of_singleton. split; congruence.
  - split; [by intros ?%elem_of_nil|done].
Qed.

Ltac split_in H :=
  repeat match type of H with
    | _ ∈ _ :: _ => apply elem_of_cons in H as [H|H]
    | _ ∈ _ ++ _ => apply elem_of_app in H as [H|H]
    | _ ∈ [] => apply elem_of_nil in H; destruct H
    | _ ∈ exn_trace _ => progress cbn [exn_trace] in H
    | _ ∈ stop_log _ _ => progress cbn [stop_log] in H
    end.

Lemma loop_run_count_done input t o : loop_run input t o → count_done t ≤ 1.
Proof.
  induction 1 as [|record rest d _|record rest body e _ Hq
                  |record rest body t o _ Hq _ IH].
  - cbn. lia.
  - change (S (count_done (exn_trace d)) ≤ 1). rewrite count_done_exn. lia.
  - change (count_done (body ++ [Raise e]) ≤ 1).
    rewrite count_done_app, quiet_count_done by done. cbn. lia.
  - change (count_done (body ++ t) ≤ 1).
    rewrite count_done_app, quiet_count_done by done. cbn. lia.
Qed.

Lemma loop_run_no_log input t o fmt arg : loop_run input t o → Log fmt arg ∉ t.
Proof.
  induction 1 as [|record rest d _|record rest body e _ Hq
                  |record rest body t o _ Hq _ IH]; intros Hin.
  - by apply elem_of_nil in Hin.
  - destruct d; split_in Hin; done.
  - split_in Hin; try done. by eapply quiet_no_log.
  - split_in Hin; try done. by eapply quiet_no_log.
Qed.

(** Once [None] is read, [done] has been called once and the reads are
    the records before that [None], then the [None]. *)
Lemma loop_run_sentinel input t o :
  loop_run input t o → Get VNone ∈ t →
  count_done t = 1
  ∧ ∃ pre post, input = pre ++ VNone :: post ∧ (VNone ∉ pre)
                ∧ gets t = pre ++ [VNone].
Proof.
  induction 1 as [|record rest d Hn|record rest body e Hn Hq
                  |record rest body t o Hn Hq _ IH]; intros Hin.
  - by apply elem_of_nil in Hin.
  - apply is_none_true in Hn as ->. split.
    + change (S (count_done (exn_trace d)) = 1). by rewrite count_done_exn.
    + exists [], rest. split_and!; [done|apply not_elem_of_nil|].
      change ([VNone] ++ gets (exn_trace d) = [VNone]). by rewrite gets_exn.
  - apply is_none_false in Hn. split_in Hin; try congruence.
    by apply quiet_no_get in Hin.
  - apply is_none_false in Hn. split_in Hin; try congruence.
    { by apply quiet_no_get in Hin. }
    destruct (IH Hin) as (Hc & pre & post & -> & Hpre & Hg). split.
    + change (count_done (body ++ t) = 1).
      by rewrite count_done_app, quiet_count_done.
    + exists (record :: pre), post. split_and!; [done| |].
      * apply not_elem_of_cons. split; [congruence|done].
      * change (record :: gets (body ++ t) = record :: pre ++ [VNone]).
        by rewrite gets_app, quiet_gets, Hg.
Qed.

(** An exception of a plugin method ends the run with that exception. *)
Lemma loop_run_raise input t o e :
  loop_run input t o → Raise e ∈ t → o = Raised e.
Proof.
  induction 1 as [|record rest d _|record rest body e' _ Hq
                  |record rest body t o _ Hq _ IH]; intros Hin.
  - by apply elem_of_nil in Hin.
  - split_in Hin; try done. by apply exn_trace_raise in Hin as ->.
  - split_in Hin; try congruence. by apply quiet_no_raise in Hin.
  - split_in Hin; try done; [by apply quiet_no_raise in Hin|by apply IH].
Qed.

(** A loop left normally has just called [done]. *)
Lemma loop_run_returned input t o :
  loop_run input t o → (∃ u, o = Returned u) → ∃ t', t = t' ++ [CallDone].
Proof.
  induction 1 as [|record rest d _|record rest body e' _ Hq
                  |record rest body t o _ Hq _ IH]; intros [u Hu]; try done.
  - destruct d; [done|]. by exists [Get record].
  - destruct IH as [t' ->]; [by exists u|].
    exists (Get record :: body ++ t'). cbn. by rewrite app_assoc.
Qed.

(** With a [None] in the queue the loop does not block. *)
Lemma loop_run_not_blocked input t o :
  loop_run input t o → VNone ∈ input → o ≠ Blocked.
Proof.
  induction 1 as [|record rest d _|record rest body e' _ Hq
                  |record rest body t o Hn Hq _ IH]; intros Hin; try done.
  - by apply elem_of_nil in Hin.
  - by destruct d.
  - apply IH. apply is_none_false in Hn.
    apply elem_of_cons in Hin as [?|?]; [congruence|done].
Qed.

(** A read that follows quiet events is not among them. *)
Lemma quiet_prefix body t t1 t2 v :
  Forall quiet body → body ++ t = t1 ++ Get v :: t2 →
  ∃ u, t1 = body ++ u ∧ t = u ++ Get v :: t2.
Proof.
  intros Hq. revert t1.
  induction Hq as [|ev body Hev Hq IH]; intros t1 Heq.
  - by exists t1.
  - destruct t1 as [|ev' t1]; cbn in Heq; injection Heq as Hhd Htl.
    + by subst ev.
    + destruct (IH t1 Htl) as (u & -> & Ht). subst ev'. by exists u.
Qed.

Lemma in_middle {A} (x : A) l1 l2 : x ∈ l1 ++ x :: l2.
Proof. apply elem_of_app. right. apply elem_of_cons. by left. Qed.

(** Nothing is put after [None] has been read. *)
Lemma loop_run_after_sentinel input t o t1 t2 :
  loop_run input t o → t = t1 ++ Get VNone :: t2 → ∀ q v, Put q v ∉ t2.
Proof.
  intros Hrun. revert t1.
  induction Hrun as [|record rest d Hn|record rest body e Hn Hq
                     |record rest body t o Hn Hq _ IH]; intros t1 Heq q v Hin.
  - by destruct t1.
  - destruct t1 as [|ev t1]; cbn in Heq; injection Heq as Hhd Htl.
    + subst t2. destruct d; split_in Hin; done.
    + pose proof (in_middle (Get VNone) t1 t2) as Hg. rewrite <- Htl in Hg.
      destruct d; split_in Hg; done.
  - apply is_none_false in Hn.
    destruct t1 as [|ev t1]; cbn in Heq; injection Heq as Hhd Htl.
    + congruence.
    + pose proof (in_middle (Get VNone) t1 t2) as Hg. rewrite <- Htl in Hg.
      split_in Hg; [by apply quiet_no_get in Hg|done].
  - apply is_none_false in Hn.
    destruct t1 as [|ev t1]; cbn in Heq; injection Heq as Hhd Htl.
    + congruence.
    + destruct (quiet_prefix _ _ _ _ _ Hq Htl) as (u & -> & Ht).
      by eapply IH.
Qed.

(** *** What [check_worker] and [cloud_worker] put into their queues *)

Lemma check_loop_cons {S} `{Transform S, HasDone S} (s : S) record rest qs :
  is_none record = false →
  trace (check_loop s (record :: rest) qs)
  = Get record :: CallEval record :: fanout qs (eval s record).2.1 ++
      match (eval s record).2.2 with
      | Some e => [Raise e]
      | None => trace (check_loop (eval s record).1 rest qs)
      end.
Proof.
  intros Hn. cbn [check_loop]. rewrite Hn.
  destruct (eval s record) as [s' [ys [e|]]]; rewrite iterate_fanout_eq; [done|].
  unfold mbind, prog_bind, trace. cbn. rewrite app_nil_r.
  by destruct (check_loop s' rest qs) as [t [[]| |]].
Qed.

Lemma check_loop_sentinel {S} `{Transform S, HasDone S} (s : S) record rest qs :
  is_none record = true →
  trace (check_loop s (record :: rest) qs)
  = Get record :: CallDone :: exn_trace (done s).2.
Proof.
  intros Hn. cbn [check_loop]. rewrite Hn. unfold call_done.
  by destruct (done s) as [s' [e|]].
Qed.

Lemma check_loop_puts {S} `{Transform S, HasDone S} (s : S) input qs q :
  NoDup qs → q ∈ qs →
  puts_to q (trace (check_loop s input qs)) = produced s input.
Proof.
  intros Hnd Hin. revert s.
  induction input as [|record rest IH]; intros s; [done|].
  cbn [produced]. destruct (is_none record) eqn:Hn.
  - rewrite check_loop_sentinel by done.
    change (puts_to q (exn_trace (done s).2) = []). apply puts_to_exn.
  - rewrite check_loop_cons by done.
    specialize (IH (eval s record).1).
    destruct (eval s record) as [s' [ys r]]. cbn [fst snd] in *.
    change (puts_to q (fanout qs ys ++ match r with
                                       | Some e => [Raise e]
                                       | None => trace (check_loop s' rest qs)
                                       end) = ys ++ match r with
                                                    | Some _ => []
                                                    | None => produced s' rest
                                                    end).
    rewrite puts_to_app, puts_to_fanout by done.
    by destruct r; [|rewrite IH].
Qed.

Lemma check_loop_put_in {S} `{Transform S, HasDone S} (s : S) input qs q v :
  Put q v ∈ trace (check_loop s input qs) → v ∈ produced s input.
Proof.
  revert s. induction input as [|record rest IH]; intros s.
  { by intros ?%elem_of_nil. }
  cbn [produced]. destruct (is_none record) eqn:Hn.
  - rewrite check_loop_sentinel by done. intros Hin.
    destruct (done s).2; split_in Hin; done.
  - rewrite check_loop_cons by done.
    specialize (IH (eval s record).1).
    destruct (eval s record) as [s' [ys r]]. cbn [fst snd] in *.
    intros Hin. apply elem_of_app. split_in Hin; try done.
    + left. by apply put_in_fanout in Hin as [? _].
    + right. destruct r; [split_in Hin; done|by apply IH].
Qed.

Lemma reader_trace_eq name (p : prog unit) :
  trace (info "%s: Started" name ≫= λ _, p ≫= λ _, info "%s: Stopped" name)
  = started name :: trace p ++ stop_log name (ending p).
Proof. destruct p as [t [[]|e|]]; cbn; by rewrite ?app_nil_r. Qed.

Lemma puts_to_stop_log q name o : puts_to q (stop_log name o) = [].
Proof. by destruct o. Qed.

(** *** Workers that read a queue *)

Lemma loop_run_raised_in input t e :
  loop_run input t (Raised e) → Raise e ∈ t.
Proof.
  intros Hrun. remember (Raised e) as o eqn:Ho.
  induction Hrun as [|record rest d _|record rest body e' _ Hq
                     |record rest body t o _ Hq _ IH].
  - done.
  - destruct d as [e'|]; [|done]. injection Ho as <-.
    cbn. rewrite !elem_of_cons. auto.
  - injection Ho as <-. rewrite elem_of_cons, elem_of_app, list_elem_of_singleton. auto.
  - rewrite elem_of_cons, elem_of_app. auto.
Qed.

Lemma loop_run_returned_get input t u :
  loop_run input t (Returned u) → Get VNone ∈ t.
Proof.
  intros Hrun. remember (Returned u) as o eqn:Ho.
  induction Hrun as [|record rest d Hn|record rest body e' _ Hq
                     |record rest body t o _ Hq _ IH]; try done.
  - apply is_none_true in Hn as ->. apply elem_of_cons. by left.
  - rewrite elem_of_cons, elem_of_app. auto.
Qed.

Lemma started_ne_stopped name : started name ≠ stopped name.
Proof. done. Qed.

Section Reader.
Context (name : string) (input : list value) (p : prog unit).
Context (Hrun : reader_run name input p).

Lemma reader_returned :
  VNone ∈ input → ¬ raised_in (trace p) → ∃ u, ending p = Returned u.
Proof using Hrun.
  destruct Hrun as (t & Hloop & Ht). intros Hin Hnr.
  pose proof (loop_run_not_blocked _ _ _ Hloop Hin) as Hnb.
  destruct (ending p) as [u|e|] eqn:He; [by exists u| |done].
  destruct Hnr. exists e. rewrite Ht.
  apply elem_of_cons. right. apply elem_of_app. left.
  by apply loop_run_raised_in in Hloop.
Qed.

Lemma reader_raise e : Raise e ∈ trace p → ending p = Raised e.
Proof using Hrun.
  destruct Hrun as (t & Hloop & Ht). rewrite Ht. intros Hin.
  split_in Hin; [done|by eapply loop_run_raise|].
  destruct (ending p); split_in Hin; done.
Qed.

Lemma reader_stopped :
  stopped name ∈ trace p →
  (∃ u, ending p = Returned u) ∧ ∃ t, trace p = t ++ [CallDone; stopped name].
Proof using Hrun.
  destruct Hrun as (t & Hloop & Ht). rewrite Ht. intros Hin.
  split_in Hin.
  - by destruct (started_ne_stopped name).
  - by eapply loop_run_no_log in Hin.
  - destruct (ending p) as [u|e|] eqn:He; split_in Hin; try done.
    split; [by exists u|].
    destruct (loop_run_returned _ _ _ Hloop) as [t' ->]; [by exists u|].
    exists (started name :: t'). cbn. by rewrite <- app_assoc.
Qed.

Lemma reader_stops_at_sentinel : stops_at_sentinel input (trace p).
Proof using Hrun.
  pose proof reader_returned as Hret.
  destruct Hrun as (t & Hloop & Ht).
  assert (count_done (trace p) = count_done t) as Hc.
  { rewrite Ht. change (count_done (t ++ stop_log name (ending p)) = count_done t).
    rewrite count_done_app. destruct (ending p); cbn; lia. }
  assert (gets (trace p) = gets t) as Hg.
  { rewrite Ht. change (gets (t ++ stop_log name (ending p)) = gets t).
    rewrite gets_app. destruct (ending p); cbn; by rewrite ?app_nil_r. }
  split_and!.
  - rewrite Hc. by eapply loop_run_count_done.
  - rewrite Hc, Hg. intros Hin. eapply loop_run_sentinel; [done|].
    rewrite Ht in Hin. split_in Hin; try done.
    destruct (ending p); split_in Hin; done.
  - intros Hin Hnr. destruct (Hret Hin Hnr) as [u Hu].
    rewrite Hu in Hloop. apply loop_run_returned_get in Hloop.
    rewrite Ht. apply elem_of_cons. right. apply elem_of_app. by left.
Qed.

Lemma reader_log_discipline : log_discipline name p.
Proof using Hrun.
  split_and!.
  - destruct Hrun as (t & _ & Ht). eauto.
  - intros e Hin. pose proof (reader_raise e Hin) as He. split; [done|].
    intros [[u Hu] _]%reader_stopped. congruence.
  - by intros [_ ?]%reader_stopped.
Qed.

Lemma reader_stop_iff : VNone ∈ input → stop_iff_no_exception name p.
Proof using Hrun.
  intros Hin. split.
  - intros [[u Hu] _]%reader_stopped [e He%reader_raise]. congruence.
  - intros Hnr. destruct (reader_returned Hin Hnr) as [u Hu].
    destruct Hrun as (t & _ & Ht). rewrite Ht, Hu. cbn.
    apply elem_of_cons. right. apply elem_of_app. right. by apply elem_of_cons; left.
Qed.

End Reader.

(** *** The cloud worker *)

Lemma cloud_log_discipline {S} `{Producer S, HasDone S} name (s : S) qs :
  log_discipline name (cloud_worker name s qs)
  ∧ stop_iff_no_exception name (cloud_worker name s qs).
Proof.
  unfold log_discipline, stop_iff_no_exception, raised_in.
  rewrite cloud_worker_eq. cbn [trace ending fst snd].
  set (ys := (read s).2.1). set (r := (read s).2.2). set (d := (done (read s).1).2).
  assert (∀ ev, ev ∈ fanout qs ys → quiet ev) as Hq.
  { apply Forall_forall, quiet_fanout. }
  destruct r as [e1|]; [|destruct d as [e2|]];
    cbn [cloud_tail cloud_ending exn_ending]; split_and!; try by eauto.
  all: try (intros e Hin; split_in Hin; try done; try (by apply Hq in Hin);
            injection Hin as ->; (split; [done|]); intros Hs;
            split_in Hs; try done; by apply Hq in Hs).
  all: try (intros Hs; split_in Hs; try done; by apply Hq in Hs).
  all: try (split; [intros Hs; split_in Hs; try done; by apply Hq in Hs|]).
  - intros []. exists e1. do 2 (apply elem_of_cons; right).
    apply elem_of_app; right. repeat constructor.
  - intros []. exists e2. do 2 (apply elem_of_cons; right).
    apply elem_of_app; right. repeat constructor.
  - intros _. by exists (started name :: CallRead :: fanout qs ys).
  - split.
    + intros _ [e Hin]. split_in Hin; try done. by apply Hq in Hin.
    + intros _. do 2 (apply elem_of_cons; right).
      apply elem_of_app; right. repeat constructor.
Qed.

Lemma cloud_worker_done_raises {S} `{Producer S, HasDone S} name (s : S) qs e :
  (read s).2.2 = None → (done (read s).1).2 = Some e →
  ending (cloud_worker name s qs) = Raised e
  ∧ (stopped name ∉ trace (cloud_worker name s qs))
  ∧ ∃ t, trace (cloud_worker name s qs) = t ++ [CallDone; Raise e].
Proof.
  intros Hr Hd.
  destruct (cloud_log_discipline name s qs) as [(_ & Hraise & _) _].
  assert (∃ t, trace (cloud_worker name s qs) = t ++ [CallDone; Raise e])
    as [t Ht].
  { rewrite cloud_worker_eq, Hr, Hd.
    by exists (started name :: CallRead :: fanout qs (read s).2.1). }
  destruct (Hraise e) as [? ?]; [|by eauto].
  rewrite Ht. apply elem_of_app. right. repeat constructor.
Qed.

Lemma store_worker_done_raises {S} `{Consumer S, HasDone S} name (s : S) rest e :
  (done s).2 = Some e →
  ending (store_worker name s (VNone :: rest)) = Raised e
  ∧ (stopped name ∉ trace (store_worker name s (VNone :: rest)))
  ∧ trace (store_worker name s (VNone :: rest))
    = [started name; Get VNone; CallDone; Raise e].
Proof.
  intros Hd. unfold store_worker. cbn [store_loop is_none]. unfold call_done.
  destruct (done s) as [s' d]. cbn in Hd. subst d. cbn.
  split_and!; [done| |done]. intros Hin. split_in Hin; done.
Qed.

Lemma check_worker_done_raises {S} `{Transform S, HasDone S} name (s : S) rest qs e :
  (done s).2 = Some e →
  ending (check_worker name s (VNone :: rest) qs) = Raised e
  ∧ (stopped name ∉ trace (check_worker name s (VNone :: rest) qs))
  ∧ trace (check_worker name s (VNone :: rest) qs)
    = [started name; Get VNone; CallDone; Raise e].
Proof.
  intros Hd. unfold check_worker. cbn [check_loop is_none]. unfold call_done.
  destruct (done s) as [s' d]. cbn in Hd. subst d. cbn.
  split_and!; [done| |done]. intros Hin. split_in Hin; done.
Qed.

Lemma produced_no_sentinel {S} `{Transform S} (s : S) input :
  (∀ s' record, VNone ∉ (eval s' record).2.1) → VNone ∉ produced s input.
Proof.
  intros Hev. revert s. induction input as [|record rest IH]; intros s.
  { apply not_elem_of_nil. }
  cbn [produced]. destruct (is_none record); [apply not_elem_of_nil|].
  specialize (Hev s record). specialize (IH (eval s record).1).
  destruct (eval s record) as [s' [ys r]]. cbn [fst snd] in *.
  intros [?|Hin]%elem_of_app; [done|].
  destruct r; [by apply elem_of_nil in Hin|done].
Qed.

Lemma check_worker_trace {S} `{Transform S, HasDone S} name (s : S) input qs :
  trace (check_worker name s input qs)
  = started name :: trace (check_loop s input qs)
      ++ stop_log name (ending (check_loop s input qs)).
Proof. apply reader_trace_eq. Qed.

Lemma check_worker_put_in {S} `{Transform S, HasDone S} name (s : S) input qs q v :
  Put q v ∈ trace (check_worker name s input qs) → v ∈ produced s input.
Proof.
  rewrite check_worker_trace. intros Hin. split_in Hin; try done.
  - by eapply check_loop_put_in.
  - destruct (ending _); split_in Hin; done.
Qed.

Lemma cloud_worker_put_in {S} `{Producer S, HasDone S} name (s : S) qs q v :
  Put q v ∈ trace (cloud_worker name s qs) → v ∈ (read s).2.1.
Proof.
  rewrite cloud_worker_eq. cbn [trace fst]. intros Hin. split_in Hin; try done.
  - by apply put_in_fanout in Hin as [? _].
  - destruct (read s).2.2; [|destruct (done _).2]; cbn in Hin; split_in Hin; done.
Qed.

Lemma check_worker_after_sentinel {S} `{Transform S, HasDone S}
    name (s : S) input qs t1 t2 :
  trace (check_worker name s input qs) = t1 ++ Get VNone :: t2 →
  ∀ q v, Put q v ∉ t2.
Proof.
  rewrite check_worker_trace.
  pose proof (check_loop_run s input qs) as Hrun.
  destruct t1 as [|ev t1]; cbn; intros Heq; injection Heq as Hhd Htl; [done|].
  destruct (ending (check_loop s input qs)) as [u|e|]; cbn in Htl;
    rewrite ?app_nil_r in Htl; try by eapply loop_run_after_sentinel.
  intros q v Hin.
  destruct (decide (t2 = [])) as [->|Hne]; [by apply elem_of_nil in Hin|].
  destruct (exists_last Hne) as (t2' & z & ->).
  change (t1 ++ Get VNone :: t2' ++ [z]) with (t1 ++ (Get VNone :: t2') ++ [z]) in Htl.
  rewrite app_assoc in Htl. apply app_inj_tail in Htl as [Ht <-].
  apply elem_of_app in Hin as [Hin|Hin]; [|split_in Hin; done].
  by eapply loop_run_after_sentinel in Hin.
Qed.

(** An exception of [eval] leaves the check worker. *)
Lemma check_worker_raises {S} `{Transform S, HasDone S}
    name (s s' : S) pre record rest qs e :
  evaluated s pre = Some s' → is_none record = false →
  (eval s' record).2.2 = Some e →
  ending (check_worker name s (pre ++ record :: rest) qs) = Raised e
  ∧ (stopped name ∉ trace (check_worker name s (pre ++ record :: rest) qs)).
Proof.
  intros Hpre Hn He.
  pose proof (check_worker_run name s (pre ++ record :: rest) qs) as Hrun.
  destruct (reader_log_discipline _ _ _ Hrun) as (_ & Hraise & _).
  apply Hraise. rewrite check_worker_trace.
  apply elem_of_cons. right. apply elem_of_app. left.
  clear Hrun Hraise. revert s Hpre.
  induction pre as [|r pre IH]; intros s Hpre; cbn [app].
  - injection Hpre as ->. rewrite check_loop_cons by done.
    do 2 (apply elem_of_cons; right). apply elem_of_app. right.
    rewrite He. by apply list_elem_of_singleton.
  - cbn [evaluated] in Hpre. destruct (is_none r) eqn:Hr; [done|].
    rewrite check_loop_cons by done.
    destruct (eval s r) as [s1 [ys [e1|]]]; [done|]. cbn [fst snd] in *.
    do 2 (apply elem_of_cons; right). apply elem_of_app. right. by apply IH.
Qed.

(** *** The claims on the workers *)

(** C1 — Fan-out replication.  A cloud worker puts into each of its
    (distinct) output queues exactly the records [read] yielded, in the
    order they were yielded; a check worker puts into each of its output
    queues exactly the event records [eval] yielded over the run, in the
    order they were yielded. *)
Theorem fan_out_replication :
  (∀ S (P : Producer S) (D : HasDone S) name (s : S) qs q,
     NoDup qs → q ∈ qs →
     puts_to q (trace (cloud_worker name s qs)) = (read s).2.1)
  ∧ (∀ S (T : Transform S) (D : HasDone S) name (s : S) input qs q,
     NoDup qs → q ∈ qs →
     puts_to q (trace (check_worker name s input qs)) = produced s input).
Proof.
  split.
  - intros S P D name s qs q Hnd Hin. rewrite cloud_worker_eq. cbn [trace fst].
    change (puts_to q (fanout qs (read s).2.1
                       ++ cloud_tail name (read s).2.2 (done (read s).1).2)
            = (read s).2.1).
    rewrite puts_to_app, puts_to_fanout by done.
    destruct (read s).2.2; [|destruct (done _).2]; cbn; by rewrite app_nil_r.
  - intros S T D name s input qs q Hnd Hin. rewrite check_worker_trace.
    change (puts_to q (trace (check_loop s input qs)
                       ++ stop_log name (ending (check_loop s input qs)))
            = produced s input).
    by rewrite puts_to_app, puts_to_stop_log, app_nil_r, check_loop_puts.
Qed.

(** C4 — No worker enqueues the sentinel.  Every item a cloud worker or
    a check worker puts into an output queue was yielded by its plugin;
    with a plugin that yields records (never [None]) no [None] is put,
    also when the check worker has read one; and a check worker puts
    nothing once it has read [None]. *)
Theorem sentinel_never_enqueued :
  (∀ S (P : Producer S) (D : HasDone S) name (s : S) qs q v,
     Put q v ∈ trace (cloud_worker name s qs) → v ∈ (read s).2.1)
  ∧ (∀ S (T : Transform S) (D : HasDone S) name (s : S) input qs q v,
     Put q v ∈ trace (check_worker name s input qs) → v ∈ produced s input)
  ∧ (∀ S (P : Producer S) (D : HasDone S) name (s : S) qs,
     VNone ∉ (read s).2.1 →
     ∀ q, Put q VNone ∉ trace (cloud_worker name s qs))
  ∧ (∀ S (T : Transform S) (D : HasDone S) name (s : S) input qs,
     (∀ s' record, VNone ∉ (eval s' record).2.1) →
     ∀ q, Put q VNone ∉ trace (check_worker name s input qs))
  ∧ (∀ S (T : Transform S) (D : HasDone S) name (s : S) input qs t1 t2,
     trace (check_worker name s input qs) = t1 ++ Get VNone :: t2 →
     ∀ q v, Put q v ∉ t2).
Proof.
  split_and!.
  - intros. by eapply cloud_worker_put_in.
  - intros. by eapply check_worker_put_in.
  - intros S P D name s qs Hno q Hin. by apply cloud_worker_put_in in Hin.
  - intros S T D name s input qs Hno q Hin. apply check_worker_put_in in Hin.
    by apply produced_no_sentinel in Hin.
  - intros. by eapply check_worker_after_sentinel.
Qed.

(** *** The claims at work on small plugins *)

Ltac by_computation := apply (bool_decide_unpack _); vm_compute; exact I.

Lemma fan_out_replication_witness :
  puts_to 1 (trace (cloud_worker "cloud"
                      (Examples.Listing [Examples.rec_a; Examples.rec_b]) [0; 1; 2]))
  = [Examples.rec_a; Examples.rec_b]
  ∧ puts_to 0 (trace (check_worker "check" (Examples.Numbering 7)
                        [Examples.rec_a; Examples.rec_b; VNone; Examples.rec_a]
                        [0; 1]))
    = [VInt 7; VInt 8].
Proof.
  split.
  - etrans.
    + apply (proj1 fan_out_replication Examples.listing _ _ "cloud"
               (Examples.Listing [Examples.rec_a; Examples.rec_b]) [0; 1; 2] 1);
        by_computation.
    + reflexivity.
  - etrans.
    + apply (proj2 fan_out_replication Examples.numbering _ _ "check"
               (Examples.Numbering 7)
               [Examples.rec_a; Examples.rec_b; VNone; Examples.rec_a] [0; 1] 0);
        by_computation.
    + reflexivity.
Defined.

Lemma sentinel_never_enqueued_witness :
  (∀ q, Put q VNone ∉ trace (cloud_worker "cloud"
                                (Examples.Listing [Examples.rec_a]) [0; 1]))
  ∧ (∀ q, Put q VNone ∉ trace (check_worker "check" (Examples.Numbering 0)
                                 [Examples.rec_a; VNone; Examples.rec_b] [0; 1])).
Proof.
  destruct sentinel_never_enqueued as (_ & _ & Hcloud & Hcheck & _). split.
  - apply (Hcloud Examples.listing _ _). by_computation.
  - apply (Hcheck Examples.numbering _ _).
    intros s' record Hin. apply list_elem_of_singleton in Hin. discriminate Hin.
Defined.

End WorkersFacts.

(** * Properties of the TLS event plugin *)

Module TLSFacts.
Import Py PyFloat Workers AzWebAppTLSEvent.
Local Open Scope list_scope.

(** *** The store only grows *)

Lemma alloc_fresh (h : heap) d : h !! (alloc h d).1 = None.
Proof. apply not_elem_of_dom, is_fresh. Qed.

Lemma alloc_lookup (h : heap) d : (alloc h d).2 !! (alloc h d).1 = Some d.
Proof. apply lookup_insert_eq. Qed.

Lemma alloc_subseteq (h : heap) d : h ⊆ (alloc h d).2.
Proof. apply insert_subseteq, (alloc_fresh h d). Qed.

Lemma new_dict_eq d (h : heap) :
  new_dict d h = (Ok (VRef (alloc h d).1), (alloc h d).2).
Proof. done. Qed.

Lemma bind_eq {A B} (m : st A) (k : A → st B) h :
  (m ≫= k) h = match m h with
               | (Ok a, h') => k a h'
               | (Err e, h') => (Err e, h')
               end.
Proof. done. Qed.

Lemma get_dict (h : heap) l d k :
  h !! l = Some d → get_ (VRef l) k h = (Ok (field d k), h).
Proof. intros Hl. unfold get_, dict_get. by rewrite Hl. Qed.

Lemma dict_get_ok (h : heap) v k x :
  dict_get h v k = Ok x → ∃ l d, v = VRef l ∧ h !! l = Some d ∧ x = field d k.
Proof.
  unfold dict_get. destruct v as [| | | | |l]; try done.
  destruct (h !! l) as [d|] eqn:Hl; [|done]. intros [= <-]. by exists l, d.
Qed.

Section Plugin.
Context (friendly_string : value → result value).
Context (py_str : heap → value → string).

Abbreviation get_event := (_get_azure_web_app_tls_event friendly_string py_str).
Abbreviation body := (eval_body friendly_string py_str).

(** [eval] on a record that is a dict, step by step. *)
Lemma eval_body_record thr (h : heap) l d :
  h !! l = Some d →
  body thr (VRef l) h =
    if is_none (field d "ext") then (Ok [], h)
    else
      match dict_get h (field d "ext") "record_type" with
      | Err e => (Err e, h)
      | Ok record_type =>
          if ne_str record_type web_app_config then (Ok [], h)
          else
            match dict_get h (field d "ext") "min_tls_version" with
            | Err e => (Err e, h)
            | Ok v =>
                match py_float v with
                | Err e => (Err e, h)
                | Ok x =>
                    if flt x thr
                    then get_event (field d "com") (field d "ext") thr h
                    else (Ok [], h)
                end
            end
      end.
Proof.
  intros Hl. unfold eval_body.
  rewrite bind_eq, (get_dict _ _ _ _ Hl), bind_eq, (get_dict _ _ _ _ Hl).
  destruct (is_none (field d "ext")); [done|].
  rewrite bind_eq. unfold get_ at 1.
  destruct (dict_get h (field d "ext") "record_type") as [rt|e]; [|done].
  destruct (ne_str rt web_app_config); [done|].
  rewrite bind_eq. unfold get_ at 1.
  destruct (dict_get h (field d "ext") "min_tls_version") as [v|e]; [|done].
  rewrite bind_eq. unfold lift at 1.
  destruct (py_float v) as [x|e]; [|done].
  by destruct (flt x thr).
Qed.

(** A record that is no dict has no [get]. *)
Lemma eval_body_not_dict thr (h : heap) record :
  (∀ l, record = VRef l → h !! l = None) →
  body thr record h = (Err AttributeError, h).
Proof.
  intros Hno. unfold eval_body. rewrite bind_eq. unfold get_ at 1, dict_get.
  destruct record as [| | | | |l]; try done. by rewrite (Hno l).
Qed.

(** Without a [com] dict the event cannot be built. *)
Lemma get_event_no_com thr (h : heap) com ext :
  (∀ l, com = VRef l → h !! l = None) →
  get_event com ext thr h = (Err AttributeError, h).
Proof.
  intros Hno. unfold _get_azure_web_app_tls_event.
  rewrite bind_eq. unfold get_ at 1, dict_get.
  destruct com as [| | | | |l]; try done. by rewrite (Hno l).
Qed.

(** The event built from a [com] dict and an [ext] dict: three new
    objects (the override dict is a fourth), the store otherwise as it
    was. *)
Lemma get_event_ok thr (h : heap) lc com le ext c :
  h !! lc = Some com → h !! le = Some ext →
  friendly_string (field com "cloud_type") = Ok c →
  ∃ h' lev lx lcom dcom,
    get_event (VRef lc) (VRef le) thr h = (Ok [VRef lev], h')
    ∧ h ⊆ h'
    ∧ h !! lev = None ∧ h !! lx = None ∧ h !! lcom = None
    ∧ h' !! lev = Some (<["ext" := VRef lx]> (<["com" := VRef lcom]> ∅))
    ∧ h' !! lx = Some ({["record_type" := VStr web_app_tls_event]} ∪ ext)
    ∧ h' !! lcom = Some dcom
    ∧ dcom !! "record_type" = Some (VStr web_app_tls_event)
    ∧ dcom !! "cloud_type" = Some (field com "cloud_type")
    ∧ dcom !! "reference" = Some (field com "reference").
Proof.
  intros Hc He Hf. unfold _get_azure_web_app_tls_event.
  rewrite bind_eq, (get_dict _ _ _ _ Hc), bind_eq. unfold lift at 1. rewrite Hf.
  rewrite bind_eq, (get_dict _ _ _ _ Hc).
  do 3 (rewrite bind_eq; unfold format1 at 1).
  rewrite bind_eq, new_dict_eq.
  set (ovr := {["record_type" := VStr web_app_tls_event]} : pydict).
  pose proof (alloc_fresh h ovr) as Hf1.
  pose proof (alloc_subseteq h ovr) as Hs1.
  pose proof (alloc_lookup h ovr) as Hl1.
  set (l1 := (alloc h ovr).1) in *. set (h1 := (alloc h ovr).2) in *.
  rewrite bind_eq. unfold merge_dicts at 1.
  rewrite (lookup_weaken _ _ _ _ He Hs1), Hl1, new_dict_eq.
  pose proof (alloc_fresh h1 (ovr ∪ ext)) as Hf2.
  pose proof (alloc_subseteq h1 (ovr ∪ ext)) as Hs2.
  pose proof (alloc_lookup h1 (ovr ∪ ext)) as Hl2.
  set (l2 := (alloc h1 (ovr ∪ ext)).1) in *.
  set (h2 := (alloc h1 (ovr ∪ ext)).2) in *.
  assert (h ⊆ h2) as Hs02 by (by etrans).
  rewrite bind_eq, (get_dict _ _ _ _ (lookup_weaken _ _ _ _ Hc Hs02)).
  rewrite bind_eq, new_dict_eq.
  match goal with |- context [alloc h2 ?d] => set (dcom := d) end.
  pose proof (alloc_fresh h2 dcom) as Hf3.
  pose proof (alloc_subseteq h2 dcom) as Hs3.
  pose proof (alloc_lookup h2 dcom) as Hl3.
  set (l3 := (alloc h2 dcom).1) in *. set (h3 := (alloc h2 dcom).2) in *.
  rewrite bind_eq, new_dict_eq.
  match goal with |- context [alloc h3 ?d] => set (dev := d) end.
  pose proof (alloc_fresh h3 dev) as Hf4.
  pose proof (alloc_subseteq h3 dev) as Hs4.
  pose proof (alloc_lookup h3 dev) as Hl4.
  set (l4 := (alloc h3 dev).1) in *. set (h4 := (alloc h3 dev).2) in *.
  assert (h ⊆ h3) as Hs03 by (by etrans).
  assert (h ⊆ h4) as Hs04 by (by etrans).
  assert (∀ (g g' : heap) l, g ⊆ g' → g' !! l = None → g !! l = None) as Hnone.
  { intros g g' l Hsub Hn. destruct (g !! l) as [x|] eqn:Hx; [|done].
    by rewrite (lookup_weaken _ _ _ _ Hx Hsub) in Hn. }
  exists h4, l4, l2, l3, dcom. split_and!; try done.
  - by apply (Hnone h h3).
  - by apply (Hnone h h1).
  - by apply (Hnone h h2).
  - eapply lookup_weaken; [exact Hl2|by etrans].
  - by eapply lookup_weaken.
Qed.

Lemma get_event_yields thr (h h' : heap) com ext ys :
  get_event com ext thr h = (Ok ys, h') →
  ∃ lc dcom c, com = VRef lc ∧ h !! lc = Some dcom
               ∧ friendly_string (field dcom "cloud_type") = Ok c.
Proof.
  unfold _get_azure_web_app_tls_event. rewrite bind_eq. unfold get_ at 1.
  destruct (dict_get h com "cloud_type") as [ct|e] eqn:Hct; [|done].
  apply dict_get_ok in Hct as (lc & dcom & -> & Hlc & ->).
  rewrite bind_eq. unfold lift at 1.
  destruct (friendly_string (field dcom "cloud_type")) as [c|e] eqn:Hf; [|done].
  intros _. by exists lc, dcom, c.
Qed.

Lemma field_ref (d : pydict) k l : field d k = VRef l → d !! k = Some (VRef l).
Proof. unfold field. destruct (d !! k); cbn; [congruence|done]. Qed.

Lemma field_some (d : pydict) k v : d !! k = Some v → field d k = v.
Proof. unfold field. by intros ->. Qed.

Lemma field_none (d : pydict) k : d !! k = None → field d k = VNone.
Proof. unfold field. by intros ->. Qed.

(** What it takes for [eval] to yield something. *)
Lemma eval_body_yields thr (h h' : heap) record ys :
  body thr record h = (Ok ys, h') → ys ≠ [] →
  ∃ l d le ext lc com c x,
    record = VRef l ∧ h !! l = Some d
    ∧ d !! "ext" = Some (VRef le) ∧ h !! le = Some ext
    ∧ ext !! "record_type" = Some (VStr web_app_config)
    ∧ py_float (field ext "min_tls_version") = Ok x ∧ flt x thr = true
    ∧ d !! "com" = Some (VRef lc) ∧ h !! lc = Some com
    ∧ friendly_string (field com "cloud_type") = Ok c
    ∧ get_event (VRef lc) (VRef le) thr h = (Ok ys, h').
Proof.
  intros Hev Hys.
  destruct record as [| | | | |l];
    try (by rewrite eval_body_not_dict in Hev).
  destruct (h !! l) as [d|] eqn:Hl;
    [|rewrite eval_body_not_dict in Hev; [done|by intros ? [= <-]]].
  rewrite (eval_body_record _ _ _ _ Hl) in Hev.
  destruct (is_none (field d "ext")); [by simplify_eq|].
  destruct (dict_get h (field d "ext") "record_type") as [rt|e] eqn:Hrt; [|done].
  apply dict_get_ok in Hrt as (le & ext & Hext & Hle & ->).
  rewrite Hext in Hev.
  destruct (ne_str _ web_app_config) eqn:Hne; [by simplify_eq|].
  unfold dict_get in Hev. rewrite Hle in Hev.
  change (default VNone (ext !! "min_tls_version"))
    with (field ext "min_tls_version") in Hev.
  destruct (py_float (field ext "min_tls_version")) as [x|e] eqn:Hx; [|done].
  destruct (flt x thr) eqn:Hlt; [|by simplify_eq].
  destruct (get_event_yields _ _ _ _ _ _ Hev) as (lc & com & c & Hcom & Hlc & Hf).
  rewrite Hcom in Hev.
  exists l, d, le, ext, lc, com, c, x. split_and!; try done.
  - by apply field_ref.
  - unfold ne_str, field in Hne. destruct (ext !! "record_type") as [[]|]; try done.
    apply negb_false_iff, String.eqb_eq in Hne. by subst.
  - by apply field_ref.
Qed.

(** [eval] on a record of type [web_app_config]. *)
Lemma eval_body_config thr (h : heap) record d ext :
  is_record h record d → has_bucket h d "ext" ext →
  ext !! "record_type" = Some (VStr web_app_config) →
  body thr record h =
    match py_float (field ext "min_tls_version") with
    | Err e => (Err e, h)
    | Ok x =>
        if flt x thr
        then get_event (field d "com") (field d "ext") thr h
        else (Ok [], h)
    end.
Proof.
  intros (l & -> & Hl) (le & Hext & Hle) Hrt.
  rewrite (eval_body_record _ _ _ _ Hl), (field_some _ _ _ Hext).
  cbn [is_none]. unfold dict_get. rewrite Hle, Hrt. cbn [default].
  unfold id. cbn [ne_str]. by rewrite String.eqb_refl.
Qed.

Lemma eval_eq thr (h : heap) record :
  AzWebAppTLSEvent.eval friendly_string py_str (Plugin thr h) record
  = match body thr record h with
    | (Ok ys, h') => (Plugin thr h', (ys, None))
    | (Err e, h') => (Plugin thr h', ([], Some e))
    end.
Proof. done. Qed.

Lemma py_float_error v e :
  py_float v = Err e → e = ValueError ∨ e = TypeError ∨ e = OverflowError.
Proof.
  destruct v as [|b|z|f|s|l]; cbn; try (intros [= <-]; by auto).
  - unfold of_int. destruct (binary_normalize _ _ _ _ _); intros [= <-]; auto.
  - unfold of_int. destruct (binary_normalize _ _ _ _ _); intros [= <-]; auto.
  - destruct (parse s); intros [= <-]; auto.
Qed.

Abbreviation tls_eval := (AzWebAppTLSEvent.eval friendly_string py_str).

(** The three versions of the boundary, against the literal [1.2]. *)
Lemma float_1_2 :
  py_float (VStr "1.2") = Ok default_min_tls_version
  ∧ flt default_min_tls_version default_min_tls_version = false.
Proof. split; vm_compute; reflexivity. Qed.

Lemma float_1_3 :
  ∃ x, py_float (VStr "1.3") = Ok x ∧ flt x default_min_tls_version = false.
Proof.
  exists (S754_finite false 5854679515581645 (-52)).
  split; vm_compute; reflexivity.
Qed.

Lemma float_1_1 :
  ∃ x, py_float (VStr "1.1") = Ok x ∧ flt x default_min_tls_version = true.
Proof.
  exists (S754_finite false 4953959590107546 (-52)).
  split; vm_compute; reflexivity.
Qed.

(** *** The claims on the plugin *)

(** C3, amended — TLS threshold boundary at the default threshold 1.2.
    On a record whose [ext] bucket has record type [web_app_config]:
    with [min_tls_version] "1.2" or "1.3", [eval] yields nothing and
    raises nothing; with "1.1", and a [com] bucket in the record on whose
    cloud type [util.friendly_string] returns, [eval] yields exactly one
    event record, whose [com] bucket has record type [web_app_tls_event]. *)
Theorem tls_threshold_boundary (h : heap) record d ext :
  is_record h record d → has_bucket h d "ext" ext →
  ext !! "record_type" = Some (VStr web_app_config) →
  (ext !! "min_tls_version" = Some (VStr "1.2")
   ∨ ext !! "min_tls_version" = Some (VStr "1.3") →
   tls_eval (Plugin default_min_tls_version h) record
   = (Plugin default_min_tls_version h, ([], None)))
  ∧ (ext !! "min_tls_version" = Some (VStr "1.1") →
     ∀ com c, has_bucket h d "com" com →
     friendly_string (field com "cloud_type") = Ok c →
     ∃ h' ev dev dcom,
       tls_eval (Plugin default_min_tls_version h) record
       = (Plugin default_min_tls_version h', ([ev], None))
       ∧ is_record h' ev dev ∧ has_bucket h' dev "com" dcom
       ∧ dcom !! "record_type" = Some (VStr web_app_tls_event)).
Proof.
  intros Hrec Hext Hrt. split.
  - intros Hv. rewrite eval_eq, (eval_body_config _ _ _ _ _ Hrec Hext Hrt).
    destruct Hv as [Hv|Hv]; rewrite (field_some _ _ _ Hv).
    + destruct float_1_2 as [-> Hlt]. by rewrite Hlt.
    + destruct float_1_3 as (x & -> & Hlt). by rewrite Hlt.
  - intros Hv com c (lc & Hcom & Hlc) Hf.
    rewrite eval_eq, (eval_body_config _ _ _ _ _ Hrec Hext Hrt).
    rewrite (field_some _ _ _ Hv).
    destruct float_1_1 as (x & -> & Hlt). rewrite Hlt.
    destruct Hext as (le & Hext & Hle).
    rewrite (field_some _ _ _ Hcom), (field_some _ _ _ Hext).
    destruct (get_event_ok default_min_tls_version h lc com le ext c Hlc Hle Hf)
      as (h' & lev & lx & lcom & dcom & -> & _ & _ & _ & _ & Hev & _ & Hdcom & Hty & _).
    exists h', (VRef lev), (<["ext" := VRef lx]> (<["com" := VRef lcom]> ∅)), dcom.
    split_and!; [done|by exists lev| |done].
    exists lcom. by split.
Qed.

(** C5 — A [min_tls_version] that [float] rejects.  On a record whose
    [ext] bucket has record type [web_app_config], if [float] raises on
    the value of [min_tls_version], [eval] raises that error
    ([ValueError], [TypeError] or [OverflowError]) and yields nothing;
    a check worker that gets to the record ends with that exception and
    does not log its stop. *)
Theorem parse_error_propagates thr (h : heap) record d ext e :
  is_record h record d → has_bucket h d "ext" ext →
  ext !! "record_type" = Some (VStr web_app_config) →
  py_float (field ext "min_tls_version") = Err e →
  tls_eval (Plugin thr h) record = (Plugin thr h, ([], Some e))
  ∧ (e = ValueError ∨ e = TypeError ∨ e = OverflowError)
  ∧ ∀ name (p0 : plugin) pre rest qs,
      evaluated (H := transform friendly_string py_str) p0 pre
        = Some (Plugin thr h) →
      let run := check_worker (H := transform friendly_string py_str)
                   name p0 (pre ++ record :: rest) qs in
      ending run = Raised e ∧ stopped name ∉ trace run.
Proof.
  intros Hrec Hext Hrt He.
  assert (tls_eval (Plugin thr h) record = (Plugin thr h, ([], Some e))) as Hev.
  { by rewrite eval_eq, (eval_body_config _ _ _ _ _ Hrec Hext Hrt), He. }
  split_and!; [done|by eapply py_float_error|].
  intros name p0 pre rest qs Hpre run. subst run.
  eapply WorkersFacts.check_worker_raises; [exact Hpre| |].
  - by destruct Hrec as (l & -> & _).
  - unfold Workers.eval, transform. by rewrite Hev.
Qed.

(** C6 — Merge semantics.  When [eval] yields an event record, the [ext]
    bucket of the event is a new dict: it holds [record_type] set to
    [web_app_tls_event] and, for every other key, what the [ext] bucket
    of the source record holds; the source [ext] dict, and every dict of
    the store, is as it was before the call. *)
Theorem merge_semantics (p p' : plugin) record ys r ev :
  tls_eval p record = (p', (ys, r)) → ev ∈ ys →
  ∃ l d le ext lev dev lx dx,
    record = VRef l ∧ store p !! l = Some d
    ∧ d !! "ext" = Some (VRef le) ∧ store p !! le = Some ext
    ∧ ev = VRef lev ∧ store p' !! lev = Some dev
    ∧ dev !! "ext" = Some (VRef lx) ∧ store p' !! lx = Some dx
    ∧ store p !! lx = None ∧ lx ≠ le
    ∧ dx !! "record_type" = Some (VStr web_app_tls_event)
    ∧ (∀ k, k ≠ "record_type" → dx !! k = ext !! k)
    ∧ store p' !! le = Some ext
    ∧ store p ⊆ store p'.
Proof.
  destruct p as [thr h]. rewrite eval_eq. cbn [store].
  destruct (body thr record h) as [[ys'|e] h'] eqn:Hbody;
    intros [= <- <- <-] Hin; [|by apply elem_of_nil in Hin].
  destruct (eval_body_yields _ _ _ _ _ Hbody)
    as (l & d & le & ext & lc & com & c & x & -> & Hl & Hext & Hle & _ & _ & _
        & Hcom & Hlc & Hf & Hget).
  { intros ->. by apply elem_of_nil in Hin. }
  destruct (get_event_ok thr h lc com le ext c Hlc Hle Hf)
    as (h2 & lev & lx & lcom & dcom & Hget' & Hsub & _ & Hlx & _ & Hev & Hdx & _).
  rewrite Hget in Hget'. injection Hget' as -> ->.
  apply list_elem_of_singleton in Hin as ->.
  exists l, d, le, ext, lev, (<["ext" := VRef lx]> (<["com" := VRef lcom]> ∅)),
    lx, ({["record_type" := VStr web_app_tls_event]} ∪ ext).
  cbn [store]. split_and!; try done.
  - congruence.
  - by apply lookup_union_Some_l, lookup_singleton_eq.
  - intros k Hk. apply lookup_union_r. by apply lookup_singleton_ne.
  - by eapply lookup_weaken.
Qed.

(** C7 — Missing bucket.  On a record with no [ext] key, [eval] yields
    nothing and raises nothing. *)
Theorem missing_ext_bucket thr (h : heap) record d :
  is_record h record d → d !! "ext" = None →
  tls_eval (Plugin thr h) record = (Plugin thr h, ([], None)).
Proof.
  intros (l & -> & Hl) Hext.
  by rewrite eval_eq, (eval_body_record _ _ _ _ Hl), (field_none _ _ Hext).
Qed.

(** C9 — Missing [min_tls_version].  On a record whose [ext] bucket has
    record type [web_app_config] and no [min_tls_version] key, [eval]
    raises ([float(None)] is a [TypeError]) and yields nothing: the
    record is not skipped. *)
Theorem missing_min_tls_version thr (h : heap) record d ext :
  is_record h record d → has_bucket h d "ext" ext →
  ext !! "record_type" = Some (VStr web_app_config) →
  ext !! "min_tls_version" = None →
  tls_eval (Plugin thr h) record = (Plugin thr h, ([], Some TypeError)).
Proof.
  intros Hrec Hext Hrt Hv.
  by rewrite eval_eq, (eval_body_config _ _ _ _ _ Hrec Hext Hrt),
    (field_none _ _ Hv).
Qed.

(** C10 — The [com] bucket is required.  On a record whose [ext] bucket
    has record type [web_app_config] and a [min_tls_version] that parses
    strictly below the threshold: without a [com] key, [eval] raises
    [AttributeError] and yields nothing; so when [eval] does not raise
    [AttributeError] the record has a [com] key; and with a [com] bucket
    on whose cloud type [util.friendly_string] returns, [eval] raises
    nothing and yields an event. *)
Theorem com_bucket_required thr (h : heap) record d ext x :
  is_record h record d → has_bucket h d "ext" ext →
  ext !! "record_type" = Some (VStr web_app_config) →
  py_float (field ext "min_tls_version") = Ok x → flt x thr = true →
  (d !! "com" = None →
   tls_eval (Plugin thr h) record = (Plugin thr h, ([], Some AttributeError)))
  ∧ ((tls_eval (Plugin thr h) record).2.2 ≠ Some AttributeError →
     is_Some (d !! "com"))
  ∧ (∀ com c, has_bucket h d "com" com →
     friendly_string (field com "cloud_type") = Ok c →
     ∃ p' ev, tls_eval (Plugin thr h) record = (p', ([ev], None))).
Proof.
  intros Hrec Hext Hrt Hx Hlt.
  assert (d !! "com" = None →
          tls_eval (Plugin thr h) record
          = (Plugin thr h, ([], Some AttributeError))) as Hno.
  { intros Hcom.
    rewrite eval_eq, (eval_body_config _ _ _ _ _ Hrec Hext Hrt), Hx, Hlt.
    rewrite (field_none _ _ Hcom), get_event_no_com; done. }
  split_and!; [done| |].
  - intros Hne. destruct (d !! "com") eqn:Hcom; [done|].
    by rewrite Hno in Hne.
  - intros com c (lc & Hcom & Hlc) Hf.
    rewrite eval_eq, (eval_body_config _ _ _ _ _ Hrec Hext Hrt), Hx, Hlt.
    destruct Hext as (le & Hext & Hle).
    rewrite (field_some _ _ _ Hcom), (field_some _ _ _ Hext).
    destruct (get_event_ok thr h lc com le ext c Hlc Hle Hf)
      as (h' & lev & _ & _ & _ & -> & _).
    by exists (Plugin thr h'), (VRef lev).
Qed.

End Plugin.

(** *** The claims at work on web app records *)

Ltac shape l := exists l; split; [reflexivity|vm_compute; reflexivity].

(** C3 as stated fails on a record without a [com] bucket: its [ext]
    bucket has record type [web_app_config] and [min_tls_version] "1.1",
    and [eval] raises [AttributeError] instead of yielding an event. *)
Lemma tls_threshold_needs_com :
  let h := Examples.bare_store (VStr "1.1") in
  let ext := Examples.ext_bucket (VStr "1.1") in
  let p := Plugin default_min_tls_version h in
  is_record h Examples.the_record Examples.bare_record
  ∧ has_bucket h Examples.bare_record "ext" ext
  ∧ ext !! "record_type" = Some (VStr "web_app_config")
  ∧ ext !! "min_tls_version" = Some (VStr "1.1")
  ∧ AzWebAppTLSEvent.eval Examples.display Examples.text p Examples.the_record
    = (p, ([], Some AttributeError))
  ∧ ¬ ∃ p' ev,
        AzWebAppTLSEvent.eval Examples.display Examples.text p Examples.the_record
        = (p', ([ev], None)).
Proof.
  assert (AzWebAppTLSEvent.eval Examples.display Examples.text
            (Plugin default_min_tls_version (Examples.bare_store (VStr "1.1")))
            Examples.the_record
          = (Plugin default_min_tls_version (Examples.bare_store (VStr "1.1")),
             ([], Some AttributeError))) as Hev
    by (vm_compute; reflexivity).
  cbv zeta. split_and!; [shape 1%positive|shape 2%positive|vm_compute; reflexivity|vm_compute; reflexivity|exact Hev|].
  intros (p' & ev & Heq). rewrite Hev in Heq. discriminate Heq.
Qed.

Lemma tls_threshold_boundary_witness :
  (let p := Plugin default_min_tls_version (Examples.app_store (VStr "1.2")) in
   AzWebAppTLSEvent.eval Examples.display Examples.text p Examples.the_record
   = (p, ([], None)))
  ∧ ∃ h' ev dev dcom,
      AzWebAppTLSEvent.eval Examples.display Examples.text
        (Plugin default_min_tls_version (Examples.app_store (VStr "1.1")))
        Examples.the_record
      = (Plugin default_min_tls_version h', ([ev], None))
      ∧ is_record h' ev dev ∧ has_bucket h' dev "com" dcom
      ∧ dcom !! "record_type" = Some (VStr web_app_tls_event).
Proof.
  split.
  - apply (proj1 (tls_threshold_boundary Examples.display Examples.text
                    (Examples.app_store (VStr "1.2")) Examples.the_record
                    Examples.app_record (Examples.ext_bucket (VStr "1.2"))
                    ltac:(shape 1%positive) ltac:(shape 2%positive) ltac:(vm_compute; reflexivity))).
    left. vm_compute; reflexivity.
  - apply (proj2 (tls_threshold_boundary Examples.display Examples.text
                    (Examples.app_store (VStr "1.1")) Examples.the_record
                    Examples.app_record (Examples.ext_bucket (VStr "1.1"))
                    ltac:(shape 1%positive) ltac:(shape 2%positive) ltac:(vm_compute; reflexivity))
             ltac:(vm_compute; reflexivity) Examples.com_bucket (VStr "azure")); [shape 3%positive|vm_compute; reflexivity].
Defined.

Lemma parse_error_propagates_witness :
  let p := Plugin default_min_tls_version (Examples.app_store (VStr "TLS1.2")) in
  AzWebAppTLSEvent.eval Examples.display Examples.text p Examples.the_record
  = (p, ([], Some ValueError))
  ∧ ending (check_worker (H := transform Examples.display Examples.text)
              "check" p [Examples.the_record; VNone] [0; 1]%nat)
    = Raised ValueError.
Proof.
  intros p.
  destruct (parse_error_propagates Examples.display Examples.text
              default_min_tls_version (Examples.app_store (VStr "TLS1.2"))
              Examples.the_record Examples.app_record
              (Examples.ext_bucket (VStr "TLS1.2")) ValueError
              ltac:(shape 1%positive) ltac:(shape 2%positive) ltac:(vm_compute; reflexivity) ltac:(vm_compute; reflexivity))
    as (Hev & _ & Hrun).
  split; [exact Hev|].
  apply (Hrun "check" p [] [VNone] [0; 1]%nat ltac:(vm_compute; reflexivity)).
Defined.

Lemma merge_semantics_witness :
  let p := Plugin default_min_tls_version (Examples.app_store (VStr "1.0")) in
  let r := AzWebAppTLSEvent.eval Examples.display Examples.text p
             Examples.the_record in
  ∃ ev lx dx,
    ev ∈ r.2.1
    ∧ store r.1 !! lx = Some dx
    ∧ store p !! lx = None
    ∧ dx !! "record_type" = Some (VStr web_app_tls_event)
    ∧ dx !! "min_tls_version" = Some (VStr "1.0")
    ∧ store r.1 !! 2%positive = Some (Examples.ext_bucket (VStr "1.0")).
Proof.
  intros p r.
  assert (r.2.1 = [VRef 7%positive]) as Hys by (vm_compute; reflexivity).
  assert (VRef 7%positive ∈ r.2.1) as Hin
    by (rewrite Hys; apply list_elem_of_singleton; reflexivity).
  destruct (merge_semantics Examples.display Examples.text p r.1
              Examples.the_record r.2.1 r.2.2 (VRef 7%positive))
    as (l & d & le & ext & lev & dev & lx & dx & Hrec & Hl & Hext & Hle & _ & _
        & _ & Hlx & Hnew & _ & Hty & Hkeys & Hsame & _).
  { assert (∀ x : plugin * generator, x = (x.1, (x.2.1, x.2.2))) as Heta
      by (by intros [? [? ?]]).
    apply Heta. }
  { exact Hin. }
  injection Hrec as <-.
  assert (d = Examples.app_record) as ->.
  { assert (store p !! 1%positive = Some Examples.app_record) as Hl'
      by (vm_compute; reflexivity).
    apply (inj Some). exact (eq_trans (eq_sym Hl) Hl'). }
  assert (le = 2%positive) as ->.
  { assert (Examples.app_record !! "ext" = Some (VRef 2%positive)) as Hext'
      by (vm_compute; reflexivity).
    pose proof (eq_trans (eq_sym Hext) Hext') as Heq. by injection Heq. }
  assert (ext = Examples.ext_bucket (VStr "1.0")) as ->.
  { assert (store p !! 2%positive = Some (Examples.ext_bucket (VStr "1.0")))
      as Hle' by (vm_compute; reflexivity).
    apply (inj Some). exact (eq_trans (eq_sym Hle) Hle'). }
  exists (VRef 7%positive), lx, dx.
  split_and!; [exact Hin|exact Hlx|exact Hnew|exact Hty| |exact Hsame].
  rewrite Hkeys by done. vm_compute. reflexivity.
Defined.

Lemma missing_ext_bucket_witness :
  let p := Plugin default_min_tls_version Examples.extless_store in
  AzWebAppTLSEvent.eval Examples.display Examples.text p Examples.the_record
  = (p, ([], None)).
Proof.
  apply (missing_ext_bucket Examples.display Examples.text
           default_min_tls_version Examples.extless_store Examples.the_record
           (<["com" := VRef 3%positive]> ∅)); [shape 1%positive|vm_compute; reflexivity].
Defined.

Lemma missing_min_tls_version_witness :
  let p := Plugin default_min_tls_version Examples.unversioned_store in
  AzWebAppTLSEvent.eval Examples.display Examples.text p Examples.the_record
  = (p, ([], Some TypeError)).
Proof.
  apply (missing_min_tls_version Examples.display Examples.text
           default_min_tls_version Examples.unversioned_store Examples.the_record
           Examples.app_record (<["record_type" := VStr "web_app_config"]> ∅));
    [shape 1%positive|shape 2%positive|vm_compute; reflexivity|vm_compute; reflexivity].
Defined.

Lemma com_bucket_required_witness :
  let p := Plugin default_min_tls_version (Examples.bare_store (VStr "1.0")) in
  AzWebAppTLSEvent.eval Examples.display Examples.text p Examples.the_record
  = (p, ([], Some AttributeError)).
Proof.
  eapply (proj1 (com_bucket_required Examples.display Examples.text
                   default_min_tls_version (Examples.bare_store (VStr "1.0"))
                   Examples.the_record Examples.bare_record
                   (Examples.ext_bucket (VStr "1.0")) _
                   ltac:(shape 1%positive) ltac:(shape 2%positive) ltac:(vm_compute; reflexivity)
                   ltac:(vm_compute; reflexivity) ltac:(vm_compute; reflexivity))).
  reflexivity.
Defined.

End TLSFacts.

(** * More on the worker functions *)

Module WorkersMore.
Import Py Workers WorkersFacts.
Local Open Scope list_scope.
Local Open Scope nat_scope.

Lemma all_puts_app t1 t2 : all_puts (t1 ++ t2) = all_puts t1 ++ all_puts t2.
Proof. apply omap_app. Qed.

Lemma writes_app t1 t2 : writes (t1 ++ t2) = writes t1 ++ writes t2.
Proof. apply omap_app. Qed.

Lemma evals_app t1 t2 : evals (t1 ++ t2) = evals t1 ++ evals t2.
Proof. apply omap_app. Qed.

Lemma all_puts_row qs y :
  all_puts ((λ q, Put q y) <$> qs) = (λ q, (q, y)) <$> qs.
Proof. induction qs as [|q qs IH]; [done|]. cbn. by f_equal. Qed.

Lemma all_puts_fanout qs ys : all_puts (fanout qs ys) = replicated qs ys.
Proof.
  induction ys as [|y ys IH]; [done|].
  unfold fanout, replicated in *. cbn [mbind list_bind].
  rewrite all_puts_app, IH. cbn. f_equal. apply all_puts_row.
Qed.

Lemma evals_fanout qs ys : evals (fanout qs ys) = [].
Proof.
  induction ys as [|y ys IH]; [done|].
  unfold fanout in *. cbn [mbind list_bind]. rewrite evals_app, IH, app_nil_r.
  cbn. clear IH. induction qs; done.
Qed.

Lemma all_puts_exn r : all_puts (exn_trace r) = [].
Proof. by destruct r. Qed.

Lemma all_puts_stop_log name o : all_puts (stop_log name o) = [].
Proof. by destruct o. Qed.

Lemma check_loop_all_puts {S} `{Transform S, HasDone S} (s : S) input qs :
  all_puts (trace (check_loop s input qs)) = replicated qs (produced s input).
Proof.
  revert s. induction input as [|record rest IH]; intros s; [done|].
  cbn [produced]. destruct (is_none record) eqn:Hn.
  - rewrite check_loop_sentinel by done.
    change (all_puts (exn_trace (done s).2) = []). apply all_puts_exn.
  - rewrite check_loop_cons by done.
    specialize (IH (eval s record).1).
    destruct (eval s record) as [s' [ys r]]. cbn [fst snd] in *.
    change (all_puts (fanout qs ys ++ match r with
                                      | Some e => [Raise e]
                                      | None => trace (check_loop s' rest qs)
                                      end)
            = replicated qs (ys ++ match r with
                                   | Some _ => []
                                   | None => produced s' rest
                                   end)).
    rewrite all_puts_app, all_puts_fanout. unfold replicated.
    rewrite bind_app. f_equal. destruct r; [done|]. apply IH.
Qed.

Lemma cloud_worker_all_puts {S} `{Producer S, HasDone S} name (s : S) qs :
  all_puts (trace (cloud_worker name s qs)) = replicated qs (read s).2.1.
Proof.
  rewrite cloud_worker_eq. cbn [trace fst].
  change (all_puts (fanout qs (read s).2.1
                    ++ cloud_tail name (read s).2.2 (done (read s).1).2)
          = replicated qs (read s).2.1).
  rewrite all_puts_app, all_puts_fanout.
  destruct (read s).2.2; [|destruct (done _).2]; cbn; by rewrite app_nil_r.
Qed.

Lemma check_worker_all_puts {S} `{Transform S, HasDone S} name (s : S) input qs :
  all_puts (trace (check_worker name s input qs))
  = replicated qs (produced s input).
Proof.
  rewrite check_worker_trace.
  change (all_puts (trace (check_loop s input qs)
                    ++ stop_log name (ending (check_loop s input qs)))
          = replicated qs (produced s input)).
  by rewrite all_puts_app, all_puts_stop_log, app_nil_r, check_loop_all_puts.
Qed.

Lemma put_in_all_puts q v t : Put q v ∈ t ↔ (q, v) ∈ all_puts t.
Proof.
  unfold all_puts. rewrite list_elem_of_omap. split.
  - intros Hin. by exists (Put q v).
  - intros (ev & Hin & Hev). destruct ev; try done. by injection Hev as -> ->.
Qed.

Lemma in_replicated q v qs ys : (q, v) ∈ replicated qs ys ↔ v ∈ ys ∧ q ∈ qs.
Proof.
  unfold replicated. rewrite list_elem_of_bind. split.
  - intros (y & Hin & Hy). apply list_elem_of_fmap in Hin as (q' & [= -> ->] & ?).
    done.
  - intros [Hv Hq]. exists v. split; [|done]. apply list_elem_of_fmap. by exists q.
Qed.

(** X1 — The order of the puts.  The puts of a cloud worker are, record
    by record in the order [read] yielded them, one put per entry of
    [output_queues] in the order of that list (a queue listed twice gets
    the record twice); likewise a check worker with the event records
    [eval] yielded.  So an item is put into a queue exactly when the queue
    is listed and the plugin yielded the item. *)
Theorem puts_in_order :
  (∀ S (P : Producer S) (D : HasDone S) name (s : S) qs,
     all_puts (trace (cloud_worker name s qs)) = replicated qs (read s).2.1
     ∧ ∀ q v, Put q v ∈ trace (cloud_worker name s qs)
              ↔ v ∈ (read s).2.1 ∧ q ∈ qs)
  ∧ (∀ S (T : Transform S) (D : HasDone S) name (s : S) input qs,
     all_puts (trace (check_worker name s input qs))
     = replicated qs (produced s input)
     ∧ ∀ q v, Put q v ∈ trace (check_worker name s input qs)
              ↔ v ∈ produced s input ∧ q ∈ qs).
Proof.
  split; intros; (split; [|intros q v; rewrite put_in_all_puts]).
  - apply cloud_worker_all_puts.
  - rewrite cloud_worker_all_puts. apply in_replicated.
  - apply check_worker_all_puts.
  - rewrite check_worker_all_puts. apply in_replicated.
Qed.

(** *** Reading, and handing over what is read *)

Lemma store_loop_cons {S} `{Consumer S, HasDone S} (s : S) record rest :
  is_none record = false →
  trace (store_loop s (record :: rest))
  = Get record :: CallWrite record ::
      match (write s record).2 with
      | Some e => [Raise e]
      | None => trace (store_loop (write s record).1 rest)
      end.
Proof.
  intros Hn. cbn [store_loop]. rewrite Hn.
  destruct (write s record) as [s' [e|]]; [done|].
  unfold mbind, prog_bind, trace. cbn.
  by destruct (store_loop s' rest) as [t [[]| |]].
Qed.

Lemma store_loop_sentinel {S} `{Consumer S, HasDone S} (s : S) record rest :
  is_none record = true →
  trace (store_loop s (record :: rest))
  = Get record :: CallDone :: exn_trace (done s).2.
Proof.
  intros Hn. cbn [store_loop]. rewrite Hn. unfold call_done.
  by destruct (done s) as [s' [e|]].
Qed.

Lemma store_worker_trace {S} `{Consumer S, HasDone S} name (s : S) input :
  trace (store_worker name s input)
  = started name :: trace (store_loop s input)
      ++ stop_log name (ending (store_loop s input)).
Proof. apply reader_trace_eq. Qed.

Lemma store_loop_writes {S} `{Consumer S, HasDone S} (s : S) input :
  writes (trace (store_loop s input))
  = before_none (gets (trace (store_loop s input))).
Proof.
  revert s. induction input as [|record rest IH]; intros s; [done|].
  destruct (is_none record) eqn:Hn.
  - rewrite store_loop_sentinel by done. cbn. rewrite Hn.
    by destruct (done s).2.
  - rewrite store_loop_cons by done. cbn. rewrite Hn. f_equal.
    destruct (write s record).2; [done|]. apply IH.
Qed.

Lemma check_loop_evals {S} `{Transform S, HasDone S} (s : S) input qs :
  evals (trace (check_loop s input qs))
  = before_none (gets (trace (check_loop s input qs))).
Proof.
  revert s. induction input as [|record rest IH]; intros s; [done|].
  destruct (is_none record) eqn:Hn.
  - rewrite check_loop_sentinel by done. cbn. rewrite Hn.
    by destruct (done s).2.
  - rewrite check_loop_cons by done. cbn. rewrite Hn. f_equal.
    change (evals (fanout qs (eval s record).2.1 ++ match (eval s record).2.2 with
                   | Some e => [Raise e]
                   | None => trace (check_loop (eval s record).1 rest qs)
                   end)
            = before_none (gets (fanout qs (eval s record).2.1
                                 ++ match (eval s record).2.2 with
                                    | Some e => [Raise e]
                                    | None => trace (check_loop (eval s record).1 rest qs)
                                    end))).
    rewrite evals_app, gets_app, evals_fanout, gets_fanout. cbn.
    destruct (eval s record).2.2; [done|]. apply IH.
Qed.

Lemma loop_run_gets_prefix input t o :
  loop_run input t o → gets t `prefix_of` input.
Proof.
  induction 1 as [|record rest d _|record rest body e _ Hq
                  |record rest body t o _ Hq _ IH].
  - done.
  - change (record :: gets (exn_trace d) `prefix_of` record :: rest).
    rewrite gets_exn. apply prefix_cons, prefix_nil.
  - change (record :: gets (body ++ [Raise e]) `prefix_of` record :: rest).
    rewrite gets_app, quiet_gets by done. apply prefix_cons, prefix_nil.
  - change (record :: gets (body ++ t) `prefix_of` record :: rest).
    rewrite gets_app, quiet_gets by done. by apply prefix_cons.
Qed.

Lemma before_none_sentinel pre post :
  VNone ∉ pre → before_none (pre ++ VNone :: post) = pre.
Proof.
  induction pre as [|v pre IH]; [done|].
  intros [Hv Hpre]%not_elem_of_cons. cbn.
  destruct (is_none v) eqn:Hn; [by apply is_none_true in Hn|].
  f_equal. by apply IH.
Qed.

Lemma gets_reader name (t : list event) o :
  gets (started name :: t ++ stop_log name o) = gets t.
Proof.
  change (gets (t ++ stop_log name o) = gets t).
  rewrite gets_app. destruct o; cbn; by rewrite ?app_nil_r.
Qed.

Lemma writes_reader name (t : list event) o :
  writes (started name :: t ++ stop_log name o) = writes t.
Proof.
  change (writes (t ++ stop_log name o) = writes t).
  rewrite writes_app. destruct o; cbn; by rewrite ?app_nil_r.
Qed.

Lemma evals_reader name (t : list event) o :
  evals (started name :: t ++ stop_log name o) = evals t.
Proof.
  change (evals (t ++ stop_log name o) = evals t).
  rewrite evals_app. destruct o; cbn; by rewrite ?app_nil_r.
Qed.

Lemma reader_complete name input (p : prog unit) :
  reader_run name input p → VNone ∈ input → ¬ raised_in (trace p) →
  before_none (gets (trace p)) = before_none input.
Proof.
  intros Hrun Hin Hnr.
  destruct (reader_stops_at_sentinel _ _ _ Hrun) as (_ & Hread & Hobs).
  destruct (Hread (Hobs Hin Hnr)) as (_ & pre & post & -> & Hpre & ->).
  rewrite before_none_sentinel by done.
  replace (pre ++ [VNone]) with (pre ++ VNone :: []) by done.
  by rewrite before_none_sentinel.
Qed.

Lemma reader_gets_prefix name input (p : prog unit) :
  reader_run name input p → gets (trace p) `prefix_of` input.
Proof.
  intros (t & Hloop & ->). rewrite gets_reader. by eapply loop_run_gets_prefix.
Qed.

(** X2 — Records are handed over in order.  A store worker reads its
    queue in order without skipping, and hands every item it reads, except
    [None], to [write], once and in that order; a check worker does the
    same with [eval].  With a [None] in the queue and no exception, these
    are all the records queued before the first [None]. *)
Theorem records_handed_over :
  (∀ S (C : Consumer S) (D : HasDone S) name (s : S) input,
     let t := trace (store_worker name s input) in
     gets t `prefix_of` input
     ∧ writes t = before_none (gets t)
     ∧ (VNone ∈ input → ¬ raised_in t → writes t = before_none input))
  ∧ (∀ S (T : Transform S) (D : HasDone S) name (s : S) input qs,
     let t := trace (check_worker name s input qs) in
     gets t `prefix_of` input
     ∧ evals t = before_none (gets t)
     ∧ (VNone ∈ input → ¬ raised_in t → evals t = before_none input)).
Proof.
  split.
  - intros S C D name s input t.
    pose proof (store_worker_run name s input) as Hrun.
    assert (writes t = before_none (gets t)) as Hw.
    { subst t. rewrite store_worker_trace, writes_reader, gets_reader.
      apply store_loop_writes. }
    split_and!; [by eapply reader_gets_prefix|done|].
    intros Hin Hnr. rewrite Hw. by eapply reader_complete.
  - intros S T D name s input qs t.
    pose proof (check_worker_run name s input qs) as Hrun.
    assert (evals t = before_none (gets t)) as Hw.
    { subst t. rewrite check_worker_trace, evals_reader, gets_reader.
      apply check_loop_evals. }
    split_and!; [by eapply reader_gets_prefix|done|].
    intros Hin Hnr. rewrite Hw. by eapply reader_complete.
Qed.

(** *** When [done] is called *)

Lemma loop_run_done_get input t o :
  loop_run input t o → count_done t = 1 → Get VNone ∈ t.
Proof.
  induction 1 as [|record rest d Hn|record rest body e _ Hq
                  |record rest body t o _ Hq _ IH]; intros Hc.
  - done.
  - apply is_none_true in Hn as ->. apply elem_of_cons. by left.
  - change (count_done (body ++ [Raise e]) = 1) in Hc.
    rewrite count_done_app, quiet_count_done in Hc by done. done.
  - change (count_done (body ++ t) = 1) in Hc.
    rewrite count_done_app, quiet_count_done in Hc by done.
    apply elem_of_cons. right. apply elem_of_app. right. by apply IH.
Qed.

Lemma count_done_reader name (t : list event) o :
  count_done (started name :: t ++ stop_log name o) = count_done t.
Proof.
  change (count_done (t ++ stop_log name o) = count_done t).
  rewrite count_done_app. destruct o; cbn; lia.
Qed.

Lemma get_in_reader name (t : list event) o v :
  Get v ∈ started name :: t ++ stop_log name o ↔ Get v ∈ t.
Proof.
  rewrite elem_of_cons, elem_of_app. split; [|by auto].
  intros [Hin|[Hin|Hin]]; [done|done|]. destruct o; split_in Hin; done.
Qed.

Lemma reader_done_iff name input (p : prog unit) :
  reader_run name input p →
  (count_done (trace p) = 1 ↔ Get VNone ∈ trace p)
  ∧ (Get VNone ∉ trace p → count_done (trace p) = 0).
Proof.
  intros Hrun.
  destruct (reader_stops_at_sentinel _ _ _ Hrun) as (Hle & Hread & _).
  destruct Hrun as (t & Hloop & Ht).
  assert (count_done (trace p) = 1 → Get VNone ∈ trace p) as Hget.
  { rewrite Ht, count_done_reader, get_in_reader. by eapply loop_run_done_get. }
  split; [split; [done|by intros [? _]%Hread]|].
  intros Hno. destruct (count_done (trace p)) as [|[|n]] eqn:Hc; [done| |lia].
  destruct Hno. by apply Hget.
Qed.

Lemma cloud_worker_count_done {S} `{Producer S, HasDone S} name (s : S) qs :
  count_done (trace (cloud_worker name s qs))
  = match (read s).2.2 with
    | None => 1
    | Some _ => 0
    end.
Proof.
  rewrite cloud_worker_eq. cbn [trace fst].
  change (count_done (started name :: CallRead :: ?t)) with (count_done t).
  rewrite count_done_app, count_done_fanout.
  destruct (read s).2.2; [|destruct (done _).2]; done.
Qed.

(** *** A queue that never delivers [None] *)

Lemma loop_run_no_sentinel input t o :
  loop_run input t o → VNone ∉ input →
  (∀ u, o ≠ Returned u) ∧ (o = Blocked → gets t = input).
Proof.
  induction 1 as [|record rest d Hn|record rest body e Hn Hq
                  |record rest body t o Hn Hq _ IH]; intros Hno.
  - done.
  - apply is_none_true in Hn as ->. destruct Hno. apply elem_of_cons. by left.
  - done.
  - apply not_elem_of_cons in Hno as [_ Hno]. destruct (IH Hno) as [Hret Hb].
    split; [done|]. intros Ho.
    change (record :: gets (body ++ t) = record :: rest).
    rewrite gets_app, quiet_gets by done. cbn. f_equal. by apply Hb.
Qed.

(** X4 — Without a [None] a reader never finishes.  When the input queue
    of a store worker or a check worker never delivers [None], the worker
    does not return: it calls [done] never, logs no stop, and, unless a
    plugin method raises, it has read every item of the queue and is
    blocked on the next [get]. *)
Theorem blocked_without_sentinel :
  (∀ S (C : Consumer S) (D : HasDone S) name (s : S) input,
     VNone ∉ input →
     let p := store_worker name s input in
     count_done (trace p) = 0 ∧ (stopped name ∉ trace p)
     ∧ (¬ raised_in (trace p) → ending p = Blocked ∧ gets (trace p) = input))
  ∧ (∀ S (T : Transform S) (D : HasDone S) name (s : S) input qs,
     VNone ∉ input →
     let p := check_worker name s input qs in
     count_done (trace p) = 0 ∧ (stopped name ∉ trace p)
     ∧ (¬ raised_in (trace p) → ending p = Blocked ∧ gets (trace p) = input)).
Proof.
  assert (∀ name input (p : prog unit),
            reader_run name input p → VNone ∉ input →
            count_done (trace p) = 0 ∧ (stopped name ∉ trace p)
            ∧ (¬ raised_in (trace p) →
               ending p = Blocked ∧ gets (trace p) = input)) as Hgen.
  { intros name input p Hrun Hno.
    pose proof (reader_gets_prefix _ _ _ Hrun) as [k Hk].
    assert (Get VNone ∉ trace p) as Hget.
    { intros Hin. apply Hno. rewrite Hk. apply elem_of_app. left.
      unfold gets. apply list_elem_of_omap. by exists (Get VNone). }
    destruct (reader_done_iff _ _ _ Hrun) as [_ Hzero].
    pose proof Hrun as (t & Hloop & Ht).
    destruct (loop_run_no_sentinel _ _ _ Hloop Hno) as [Hret Hb].
    split_and!; [by apply Hzero| |].
    - intros Hs. destruct (reader_stopped _ _ _ Hrun Hs) as [[u Hu] _].
      by destruct (Hret u).
    - intros Hnr. destruct (ending p) as [u|e|] eqn:He.
      + by destruct (Hret u).
      + destruct Hnr. exists e. rewrite Ht. apply elem_of_cons. right.
        apply elem_of_app. left. by eapply loop_run_raised_in.
      + split; [done|]. rewrite Ht, gets_reader. by apply Hb. }
  split; intros.
  - eapply Hgen; [apply store_worker_run|done].
  - eapply Hgen; [apply check_worker_run|done].
Qed.

(** *** The properties at work on small plugins *)

Ltac no_raise :=
  let e := fresh "e" in let Hin := fresh "Hin" in
  intros [e Hin]; apply list_elem_of_In in Hin; vm_compute in Hin;
  intuition discriminate.

Lemma records_handed_over_witness :
  writes (trace (store_worker "store" (Examples.Collector [])
                   [Examples.rec_a; Examples.rec_b; VNone; Examples.rec_a]))
  = [Examples.rec_a; Examples.rec_b].
Proof.
  destruct (proj1 records_handed_over Examples.collector _ _ "store"
              (Examples.Collector [])
              [Examples.rec_a; Examples.rec_b; VNone; Examples.rec_a])
    as (_ & _ & Hall).
  etrans.
  - apply Hall; [by_computation|no_raise].
  - reflexivity.
Defined.

Lemma blocked_without_sentinel_witness :
  let p := store_worker "store" (Examples.Collector [])
             [Examples.rec_a; Examples.rec_b] in
  count_done (trace p) = 0 ∧ (stopped "store" ∉ trace p)
  ∧ ending p = Blocked ∧ gets (trace p) = [Examples.rec_a; Examples.rec_b].
Proof.
  intros p.
  destruct (proj1 blocked_without_sentinel Examples.collector _ _ "store"
              (Examples.Collector []) [Examples.rec_a; Examples.rec_b])
    as (Hdone & Hstop & Hblocked).
  { by_computation. }
  split_and!; [exact Hdone|exact Hstop|apply Hblocked; no_raise..].
Defined.

End WorkersMore.

(** * The workers along the plugin's results *)

Module WorkerRuns.
Import Py Workers WorkersFacts WorkersMore.
Local Open Scope list_scope.
Local Open Scope nat_scope.

Lemma worker_wrap_eq name (p : prog unit) :
  (info "%s: Started" name ≫= λ _, p ≫= λ _, info "%s: Stopped" name)
  = (started name :: trace p ++ stop_log name (ending p), ending p).
Proof. destruct p as [t [[]|e|]]; cbn; by rewrite ?app_nil_r. Qed.

Lemma after_done_eq name d :
  exn_trace d ++ stop_log name (exn_ending d) = after_done name d.
Proof. by destruct d. Qed.

Lemma calm_count_done t : Forall calm t → count_done t = 0.
Proof.
  induction 1 as [|ev t Hev _ IH]; [done|].
  unfold count_done in *. by destruct ev.
Qed.

Lemma calm_no_raise t e : Forall calm t → Raise e ∉ t.
Proof. intros Hq Hin. by apply (proj1 (Forall_forall _ _) Hq) in Hin. Qed.

Lemma calm_fanout qs ys : Forall calm (fanout qs ys).
Proof.
  apply Forall_forall. intros ev (y & Hy & _)%list_elem_of_bind.
  apply elem_of_cons in Hy as [->|Hy]; [done|].
  by apply list_elem_of_fmap in Hy as (q & -> & _).
Qed.

(** *** One turn of each loop *)

Lemma store_loop_none {S} `{Consumer S, HasDone S} (s : S) record rest :
  is_none record = true →
  store_loop s (record :: rest)
  = (Get record :: CallDone :: exn_trace (done s).2, exn_ending (done s).2).
Proof.
  intros Hn. cbn [store_loop]. rewrite Hn. unfold call_done.
  by destruct (done s) as [s' [e|]].
Qed.

Lemma store_loop_fail {S} `{Consumer S, HasDone S} (s : S) record rest e :
  is_none record = false → (write s record).2 = Some e →
  store_loop s (record :: rest)
  = ([Get record; CallWrite record; Raise e], Raised e).
Proof.
  intros Hn Hw. cbn [store_loop]. rewrite Hn.
  destruct (write s record) as [s' r]. cbn in Hw. by subst r.
Qed.

Lemma store_loop_step {S} `{Consumer S, HasDone S} (s : S) record rest :
  is_none record = false → (write s record).2 = None →
  store_loop s (record :: rest)
  = (Get record :: CallWrite record :: trace (store_loop (write s record).1 rest),
     ending (store_loop (write s record).1 rest)).
Proof.
  intros Hn Hw. cbn [store_loop]. rewrite Hn.
  destruct (write s record) as [s' r]. cbn in Hw. subst r. cbn [fst].
  unfold mbind, prog_bind, trace, ending. cbn.
  by destruct (store_loop s' rest) as [t [[]| |]].
Qed.

Lemma check_loop_none {S} `{Transform S, HasDone S} (s : S) record rest qs :
  is_none record = true →
  check_loop s (record :: rest) qs
  = (Get record :: CallDone :: exn_trace (done s).2, exn_ending (done s).2).
Proof.
  intros Hn. cbn [check_loop]. rewrite Hn. unfold call_done.
  by destruct (done s) as [s' [e|]].
Qed.

Lemma check_loop_fail {S} `{Transform S, HasDone S} (s : S) record rest qs e :
  is_none record = false → (eval s record).2.2 = Some e →
  check_loop s (record :: rest) qs
  = (Get record :: CallEval record :: fanout qs (eval s record).2.1 ++ [Raise e],
     Raised e).
Proof.
  intros Hn Hw. cbn [check_loop]. rewrite Hn.
  destruct (eval s record) as [s' [ys r]]. cbn in Hw. subst r.
  by rewrite iterate_fanout_eq.
Qed.

Lemma check_loop_step {S} `{Transform S, HasDone S} (s : S) record rest qs :
  is_none record = false → (eval s record).2.2 = None →
  check_loop s (record :: rest) qs
  = (Get record :: CallEval record :: fanout qs (eval s record).2.1
       ++ trace (check_loop (eval s record).1 rest qs),
     ending (check_loop (eval s record).1 rest qs)).
Proof.
  intros Hn Hw. cbn [check_loop]. rewrite Hn.
  destruct (eval s record) as [s' [ys r]]. cbn in Hw. subst r. cbn [fst snd].
  rewrite iterate_fanout_eq.
  unfold mbind, prog_bind, trace, ending. cbn. rewrite app_nil_r.
  by destruct (check_loop s' rest qs) as [t [[]| |]].
Qed.

(** *** The loop up to a point of the queue *)

Lemma store_loop_prefix {S} `{Consumer S, HasDone S} (s s' : S) pre :
  written s pre = Some s' →
  ∃ t1, Forall calm t1 ∧ gets t1 = pre
        ∧ ∀ rest, store_loop s (pre ++ rest)
                  = (t1 ++ trace (store_loop s' rest),
                     ending (store_loop s' rest)).
Proof.
  revert s. induction pre as [|record pre IH]; intros s Hw.
  - injection Hw as ->. exists []. split_and!; [done|done|].
    intros rest. cbn [app]. by destruct (store_loop s' rest).
  - cbn in Hw. destruct (is_none record) eqn:Hn; [done|].
    destruct (write s record) as [s1 r] eqn:Hwr. destruct r as [e|]; [done|].
    destruct (IH s1 Hw) as (t1 & Hcalm & Hgets & Heq).
    exists (Get record :: CallWrite record :: t1). split_and!.
    + by repeat constructor.
    + change (record :: gets t1 = record :: pre). by rewrite Hgets.
    + intros rest. cbn [app]. rewrite store_loop_step by (by rewrite ?Hwr).
      rewrite Hwr. cbn [fst]. by rewrite Heq.
Qed.

Lemma check_loop_prefix {S} `{Transform S, HasDone S} (s s' : S) pre qs :
  evaluated s pre = Some s' →
  ∃ t1, Forall calm t1 ∧ gets t1 = pre
        ∧ ∀ rest, check_loop s (pre ++ rest) qs
                  = (t1 ++ trace (check_loop s' rest qs),
                     ending (check_loop s' rest qs)).
Proof.
  revert s. induction pre as [|record pre IH]; intros s Hw.
  - injection Hw as ->. exists []. split_and!; [done|done|].
    intros rest. cbn [app]. by destruct (check_loop s' rest qs).
  - cbn in Hw. destruct (is_none record) eqn:Hn; [done|].
    destruct (eval s record) as [s1 [ys r]] eqn:Hev. cbn [snd] in Hw.
    destruct r as [e|]; [done|].
    destruct (IH s1 Hw) as (t1 & Hcalm & Hgets & Heq).
    exists (Get record :: CallEval record :: fanout qs ys ++ t1). split_and!.
    + do 2 (constructor; [done|]). apply Forall_app. split; [apply calm_fanout|done].
    + change (record :: gets (fanout qs ys ++ t1) = record :: pre).
      by rewrite gets_app, gets_fanout, Hgets.
    + intros rest. cbn [app]. rewrite check_loop_step by (by rewrite ?Hev).
      rewrite Hev. cbn [fst snd]. rewrite Heq. cbn [trace ending fst snd].
      by rewrite <- app_assoc.
Qed.

(** A loop that is left normally has read [None] after records that
    went through, and [done] did not raise. *)
Lemma store_loop_returned {S} `{Consumer S, HasDone S} (s : S) input u :
  ending (store_loop s input) = Returned u →
  ∃ pre post s', input = pre ++ VNone :: post ∧ written s pre = Some s'
                 ∧ (done s').2 = None.
Proof.
  revert s. induction input as [|record rest IH]; intros s; [done|].
  destruct (is_none record) eqn:Hn.
  - rewrite store_loop_none by done. cbn [ending snd]. intros Hd.
    apply is_none_true in Hn as ->. exists [], rest, s.
    split_and!; [done|done|]. by destruct (done s).2.
  - destruct (write s record) as [s1 r] eqn:Hwr. destruct r as [e|].
    + rewrite (store_loop_fail _ _ _ e) by (by rewrite ?Hwr). done.
    + rewrite store_loop_step by (by rewrite ?Hwr). rewrite Hwr.
      cbn [ending fst snd]. intros (pre & post & s' & -> & Hw & Hd)%IH.
      exists (record :: pre), post, s'. split_and!; [done| |done].
      cbn [written]. by rewrite Hn, Hwr.
Qed.

Lemma check_loop_returned {S} `{Transform S, HasDone S} (s : S) input qs u :
  ending (check_loop s input qs) = Returned u →
  ∃ pre post s', input = pre ++ VNone :: post ∧ evaluated s pre = Some s'
                 ∧ (done s').2 = None.
Proof.
  revert s. induction input as [|record rest IH]; intros s; [done|].
  destruct (is_none record) eqn:Hn.
  - rewrite check_loop_none by done. cbn [ending snd]. intros Hd.
    apply is_none_true in Hn as ->. exists [], rest, s.
    split_and!; [done|done|]. by destruct (done s).2.
  - destruct (eval s record) as [s1 [ys r]] eqn:Hev. destruct r as [e|].
    + rewrite (check_loop_fail _ _ _ _ e) by (by rewrite ?Hev). done.
    + rewrite check_loop_step by (by rewrite ?Hev). rewrite Hev.
      cbn [ending fst snd]. intros (pre & post & s' & -> & Hw & Hd)%IH.
      exists (record :: pre), post, s'. split_and!; [done| |done].
      cbn [evaluated]. by rewrite Hn, Hev.
Qed.

(** *** The workers around their loops *)

Lemma store_worker_eq {S} `{Consumer S, HasDone S} name (s : S) input :
  store_worker name s input
  = (started name :: trace (store_loop s input)
       ++ stop_log name (ending (store_loop s input)),
     ending (store_loop s input)).
Proof. apply worker_wrap_eq. Qed.

Lemma check_worker_eq {S} `{Transform S, HasDone S} name (s : S) input qs :
  check_worker name s input qs
  = (started name :: trace (check_loop s input qs)
       ++ stop_log name (ending (check_loop s input qs)),
     ending (check_loop s input qs)).
Proof. apply worker_wrap_eq. Qed.

Lemma stopped_in_wrap name input t o :
  loop_run input t o →
  stopped name ∈ started name :: t ++ stop_log name o ↔ ∃ u, o = Returned u.
Proof.
  intros Hrun. split.
  - intros Hin. split_in Hin.
    + by destruct (started_ne_stopped name).
    + by eapply loop_run_no_log in Hin.
    + destruct o as [u| |]; split_in Hin; try done. by exists u.
  - intros [u ->]. apply elem_of_cons. right. apply elem_of_app. right.
    by apply list_elem_of_singleton.
Qed.

Lemma wrap_ends_with_done name input t u :
  loop_run input t (Returned u) →
  ∃ t', started name :: t ++ stop_log name (Returned u)
        = t' ++ [CallDone; stopped name].
Proof.
  intros Hrun. destruct (loop_run_returned _ _ _ Hrun) as [t' ->]; [by exists u|].
  exists (started name :: t'). cbn. by rewrite <- app_assoc.
Qed.

(** Once [None] is read: the reads before it, that read, the call of
    [done], and what [done] gives. *)
Lemma loop_run_sentinel_shape input t o :
  loop_run input t o → Get VNone ∈ t →
  ∃ pre post t1 d,
    input = pre ++ VNone :: post ∧ (VNone ∉ pre)
    ∧ t = t1 ++ Get VNone :: CallDone :: exn_trace d
    ∧ gets t1 = pre ∧ count_done t1 = 0 ∧ o = exn_ending d.
Proof.
  induction 1 as [|record rest d Hn|record rest body e Hn Hq
                  |record rest body t o Hn Hq _ IH]; intros Hin.
  - by apply elem_of_nil in Hin.
  - apply is_none_true in Hn as ->. exists [], rest, [], d.
    split_and!; [done|apply not_elem_of_nil|done..].
  - apply is_none_false in Hn. split_in Hin; try congruence.
    by apply quiet_no_get in Hin.
  - apply is_none_false in Hn. split_in Hin; try congruence.
    { by apply quiet_no_get in Hin. }
    destruct (IH Hin) as (pre & post & t1 & d & -> & Hpre & -> & Hg & Hc & ->).
    exists (record :: pre), post, (Get record :: body ++ t1), d. split_and!.
    + done.
    + apply not_elem_of_cons. split; [congruence|done].
    + cbn. by rewrite <- app_assoc.
    + change (record :: gets (body ++ t1) = record :: pre).
      by rewrite gets_app, quiet_gets, Hg.
    + change (count_done (body ++ t1) = 0).
      by rewrite count_done_app, quiet_count_done, Hc.
    + done.
Qed.

Lemma reader_done_at_sentinel name input (p : prog unit) :
  reader_run name input p → done_at_sentinel name input (trace p).
Proof.
  intros Hrun.
  destruct (reader_stops_at_sentinel _ _ _ Hrun) as (Hle & _ & _).
  destruct (reader_done_iff _ _ _ Hrun) as [_ Hzero].
  split_and!; [done|done|].
  destruct Hrun as (t & Hloop & Ht). rewrite Ht. intros Hin%get_in_reader.
  destruct (loop_run_sentinel_shape _ _ _ Hloop Hin)
    as (pre & post & t1 & d & -> & Hpre & -> & Hg & Hc & ->).
  exists pre, post, t1, d. split_and!; try done.
  cbn. rewrite <- app_assoc. cbn. by rewrite after_done_eq.
Qed.

(** *** The claims along the plugin's results *)

Lemma store_worker_at_sentinel {S} `{Consumer S, HasDone S}
    name (s s' : S) pre post :
  written s pre = Some s' →
  ∃ t1, store_worker name s (pre ++ VNone :: post)
        = (started name :: t1
             ++ Get VNone :: CallDone :: after_done name (done s').2,
           exn_ending (done s').2)
        ∧ Forall calm t1 ∧ gets t1 = pre.
Proof.
  intros Hw. destruct (store_loop_prefix s s' pre Hw) as (t1 & Hcalm & Hg & Heq).
  exists t1. split_and!; [|done|done].
  rewrite store_worker_eq, Heq, store_loop_none by done.
  cbn [trace ending fst snd]. f_equal. cbn. f_equal.
  rewrite <- app_assoc. cbn. by rewrite after_done_eq.
Qed.

Lemma check_worker_at_sentinel {S} `{Transform S, HasDone S}
    name (s s' : S) pre post qs :
  evaluated s pre = Some s' →
  ∃ t1, check_worker name s (pre ++ VNone :: post) qs
        = (started name :: t1
             ++ Get VNone :: CallDone :: after_done name (done s').2,
           exn_ending (done s').2)
        ∧ Forall calm t1 ∧ gets t1 = pre.
Proof.
  intros Hw. destruct (check_loop_prefix s s' pre qs Hw) as (t1 & Hcalm & Hg & Heq).
  exists t1. split_and!; [|done|done].
  rewrite check_worker_eq, Heq, check_loop_none by done.
  cbn [trace ending fst snd]. f_equal. cbn. f_equal.
  rewrite <- app_assoc. cbn. by rewrite after_done_eq.
Qed.

Lemma store_worker_write_raises {S} `{Consumer S, HasDone S}
    name (s s' : S) pre record rest e :
  written s pre = Some s' → is_none record = false →
  (write s' record).2 = Some e →
  ∃ t1, store_worker name s (pre ++ record :: rest)
        = (started name :: t1 ++ [Get record; CallWrite record; Raise e],
           Raised e)
        ∧ Forall calm t1 ∧ gets t1 = pre.
Proof.
  intros Hw Hn He.
  destruct (store_loop_prefix s s' pre Hw) as (t1 & Hcalm & Hg & Heq).
  exists t1. split_and!; [|done|done].
  rewrite store_worker_eq, Heq, (store_loop_fail _ _ _ e) by done.
  cbn [trace ending fst snd stop_log]. by rewrite app_nil_r.
Qed.

Lemma check_worker_eval_raises {S} `{Transform S, HasDone S}
    name (s s' : S) pre record rest qs e :
  evaluated s pre = Some s' → is_none record = false →
  (eval s' record).2.2 = Some e →
  ∃ t1, check_worker name s (pre ++ record :: rest) qs
        = (started name :: t1 ++ [Raise e], Raised e)
        ∧ Forall calm t1.
Proof.
  intros Hw Hn He.
  destruct (check_loop_prefix s s' pre qs Hw) as (t1 & Hcalm & Hg & Heq).
  exists (t1 ++ Get record :: CallEval record :: fanout qs (eval s' record).2.1).
  split.
  - rewrite check_worker_eq, Heq, (check_loop_fail _ _ _ _ e) by done.
    cbn [trace ending fst snd stop_log]. rewrite app_nil_r.
    f_equal. f_equal. rewrite <- app_assoc. cbn. do 3 f_equal.
  - apply Forall_app. split; [done|].
    do 2 (constructor; [done|]). apply calm_fanout.
Qed.

Lemma not_in_calm_tail name (t1 : list event) ev :
  Forall calm t1 → ¬ calm ev →
  ev ∈ started name :: t1 → ev = started name.
Proof.
  intros Hcalm Hev Hin. apply elem_of_cons in Hin as [?|Hin]; [done|].
  by apply (proj1 (Forall_forall _ _) Hcalm) in Hin.
Qed.

(** C2 — Sentinel termination.  In every run of a store worker and of a
    check worker: [done] is called at most once and not before [None] is
    read; once the first [None] of the queue is read, [done] is called
    right after that read, and after it comes only the exception [done]
    raised or the stop log: nothing more is read, whatever follows the
    [None] in the queue.  So when [write] (or [eval]) raises on none of
    the records before the first [None], the run is: the reads of these
    records, the read of the [None], one call of [done] on the plugin
    these records left, and its outcome. *)
Theorem sentinel_stops_the_worker :
  (∀ S (C : Consumer S) (D : HasDone S) name (s : S) input,
     done_at_sentinel name input (trace (store_worker name s input))
     ∧ ∀ pre post s',
         input = pre ++ VNone :: post → written s pre = Some s' →
         ∃ t1, trace (store_worker name s input)
               = started name :: t1
                   ++ Get VNone :: CallDone :: after_done name (done s').2
               ∧ gets t1 = pre ∧ count_done t1 = 0)
  ∧ (∀ S (T : Transform S) (D : HasDone S) name (s : S) input qs,
     done_at_sentinel name input (trace (check_worker name s input qs))
     ∧ ∀ pre post s',
         input = pre ++ VNone :: post → evaluated s pre = Some s' →
         ∃ t1, trace (check_worker name s input qs)
               = started name :: t1
                   ++ Get VNone :: CallDone :: after_done name (done s').2
               ∧ gets t1 = pre ∧ count_done t1 = 0).
Proof.
  split.
  - intros S C D name s input. split.
    + eapply reader_done_at_sentinel, store_worker_run.
    + intros pre post s' -> Hw.
      destruct (store_worker_at_sentinel name s s' pre post Hw)
        as (t1 & -> & Hcalm & Hg).
      exists t1. split_and!; [done|done|by apply calm_count_done].
  - intros S T D name s input qs. split.
    + eapply reader_done_at_sentinel, check_worker_run.
    + intros pre post s' -> Hw.
      destruct (check_worker_at_sentinel name s s' pre post qs Hw)
        as (t1 & -> & Hcalm & Hg).
      exists t1. split_and!; [done|done|by apply calm_count_done].
Qed.

(** C8, amended — Start and stop logging.  Every worker logs its start,
    tagged with its name, first.  A cloud worker logs its stop exactly
    when neither [read] nor [done] raises.  A store worker and a check
    worker log their stop exactly when the queue delivers a [None],
    [write] (or [eval]) raises on none of the records before it, and
    [done] does not raise.  A stop log is the last event, right after the
    call of [done], and the worker returns.  An exception of [read],
    [write], [eval] or [done] ends the worker with that exception, its
    stop not logged.  A store or check worker whose queue runs out
    without a [None], nothing having raised, is blocked, its stop not
    logged. *)
Theorem start_and_stop_logs :
  (∀ S (P : Producer S) (D : HasDone S) name (s : S) qs,
     let w := cloud_worker name s qs in
     (∃ t, trace w = started name :: t)
     ∧ (stopped name ∈ trace w
        ↔ (read s).2.2 = None ∧ (done (read s).1).2 = None)
     ∧ (stopped name ∈ trace w →
        ending w = Returned tt ∧ ∃ t, trace w = t ++ [CallDone; stopped name])
     ∧ (∀ e, (read s).2.2 = Some e →
        ending w = Raised e ∧ (stopped name ∉ trace w))
     ∧ (∀ e, (read s).2.2 = None → (done (read s).1).2 = Some e →
        ending w = Raised e ∧ (stopped name ∉ trace w)
        ∧ ∃ t, trace w = t ++ [CallDone; Raise e]))
  ∧ (∀ S (C : Consumer S) (D : HasDone S) name (s : S) input,
     let w := store_worker name s input in
     (∃ t, trace w = started name :: t)
     ∧ (stopped name ∈ trace w
        ↔ ∃ pre post s', input = pre ++ VNone :: post
                         ∧ written s pre = Some s' ∧ (done s').2 = None)
     ∧ (stopped name ∈ trace w →
        ending w = Returned tt ∧ ∃ t, trace w = t ++ [CallDone; stopped name])
     ∧ (∀ pre record rest s' e,
        input = pre ++ record :: rest → written s pre = Some s' →
        is_none record = false → (write s' record).2 = Some e →
        ending w = Raised e ∧ (stopped name ∉ trace w))
     ∧ (∀ pre post s' e,
        input = pre ++ VNone :: post → written s pre = Some s' →
        (done s').2 = Some e →
        ending w = Raised e ∧ (stopped name ∉ trace w)
        ∧ ∃ t, trace w = t ++ [CallDone; Raise e])
     ∧ (∀ s', written s input = Some s' →
        ending w = Blocked ∧ (stopped name ∉ trace w)))
  ∧ (∀ S (T : Transform S) (D : HasDone S) name (s : S) input qs,
     let w := check_worker name s input qs in
     (∃ t, trace w = started name :: t)
     ∧ (stopped name ∈ trace w
        ↔ ∃ pre post s', input = pre ++ VNone :: post
                         ∧ evaluated s pre = Some s' ∧ (done s').2 = None)
     ∧ (stopped name ∈ trace w →
        ending w = Returned tt ∧ ∃ t, trace w = t ++ [CallDone; stopped name])
     ∧ (∀ pre record rest s' e,
        input = pre ++ record :: rest → evaluated s pre = Some s' →
        is_none record = false → (eval s' record).2.2 = Some e →
        ending w = Raised e ∧ (stopped name ∉ trace w))
     ∧ (∀ pre post s' e,
        input = pre ++ VNone :: post → evaluated s pre = Some s' →
        (done s').2 = Some e →
        ending w = Raised e ∧ (stopped name ∉ trace w)
        ∧ ∃ t, trace w = t ++ [CallDone; Raise e])
     ∧ (∀ s', evaluated s input = Some s' →
        ending w = Blocked ∧ (stopped name ∉ trace w))).
Proof.
  split_and!.
  - intros S P D name s qs w. subst w.
    destruct (cloud_log_discipline name s qs) as [(Hstart & Hraise & Hlast) Hiff].
    assert (stopped name ∈ trace (cloud_worker name s qs)
            ↔ (read s).2.2 = None ∧ (done (read s).1).2 = None) as Hstop.
    { rewrite cloud_worker_eq. cbn [trace fst].
      assert (∀ ev, ev ∈ fanout qs (read s).2.1 → quiet ev) as Hq
        by apply Forall_forall, quiet_fanout.
      destruct (read s).2.2 as [e1|]; [|destruct (done _).2 as [e2|]];
        cbn [cloud_tail]; (split; [intros Hin|intros [? ?]]); try done.
      - split_in Hin; try done. by apply Hq in Hin.
      - split_in Hin; try done. by apply Hq in Hin.
      - do 2 (apply elem_of_cons; right). apply elem_of_app; right.
        repeat constructor. }
    assert (∀ e, ending (cloud_worker name s qs) = Raised e →
                 stopped name ∉ trace (cloud_worker name s qs)) as Hno.
    { intros e He [Hr Hd]%Hstop. rewrite cloud_worker_eq in He.
      cbn [ending snd] in He. by rewrite Hr, Hd in He. }
    split_and!; [done|done| | |].
    + intros Hin. split; [|by apply Hlast].
      apply Hstop in Hin as [Hr Hd]. rewrite cloud_worker_eq.
      cbn [ending snd]. by rewrite Hr, Hd.
    + intros e He.
      assert (ending (cloud_worker name s qs) = Raised e) as Hend
        by (rewrite cloud_worker_eq; cbn [ending snd]; by rewrite He).
      split; [done|by eapply Hno].
    + intros e Hr Hd.
      destruct (cloud_worker_done_raises name s qs e Hr Hd) as (? & ? & ?).
      done.
  - intros S C D name s input w. subst w.
    pose proof (store_worker_run name s input) as Hrun.
    assert (stopped name ∈ trace (store_worker name s input) →
            ending (store_worker name s input) = Returned tt
            ∧ ∃ t, trace (store_worker name s input)
                   = t ++ [CallDone; stopped name]) as Hlast.
    { intros [[[] Hu] Ht]%(reader_stopped _ _ _ Hrun). done. }
    assert (∀ e, ending (store_worker name s input) = Raised e →
                 stopped name ∉ trace (store_worker name s input)) as Hno.
    { intros e He [Hr _]%Hlast. congruence. }
    split_and!; [by destruct Hrun as (t & _ & ->); eauto| |done|..].
    + split.
      * intros [Hret _]%Hlast. rewrite store_worker_eq in Hret.
        by apply store_loop_returned in Hret.
      * intros (pre & post & s' & -> & Hw & Hd).
        destruct (store_worker_at_sentinel name s s' pre post Hw)
          as (t1 & -> & _). rewrite Hd. cbn [trace fst after_done].
        apply elem_of_cons; right. apply elem_of_app; right. repeat constructor.
    + intros pre record rest s' e -> Hw Hn He.
      destruct (store_worker_write_raises name s s' pre record rest e Hw Hn He)
        as (t1 & Heq & _).
      assert (ending (store_worker name s (pre ++ record :: rest)) = Raised e)
        as Hend by (by rewrite Heq).
      split; [done|by eapply Hno].
    + intros pre post s' e -> Hw Hd.
      destruct (store_worker_at_sentinel name s s' pre post Hw)
        as (t1 & Heq & _). rewrite Hd in Heq.
      assert (ending (store_worker name s (pre ++ VNone :: post)) = Raised e)
        as Hend by (by rewrite Heq).
      split_and!; [done|by eapply Hno|].
      rewrite Heq. cbn [trace fst after_done].
      exists (started name :: t1 ++ [Get VNone]). cbn. by rewrite <- app_assoc.
    + intros s' Hw.
      destruct (store_loop_prefix s s' input Hw) as (t1 & _ & _ & Heq).
      specialize (Heq []). rewrite app_nil_r in Heq.
      assert (ending (store_worker name s input) = Blocked) as Hend
        by (by rewrite store_worker_eq, Heq).
      split; [done|]. intros [Hr _]%Hlast. congruence.
  - intros S T D name s input qs w. subst w.
    pose proof (check_worker_run name s input qs) as Hrun.
    assert (stopped name ∈ trace (check_worker name s input qs) →
            ending (check_worker name s input qs) = Returned tt
            ∧ ∃ t, trace (check_worker name s input qs)
                   = t ++ [CallDone; stopped name]) as Hlast.
    { intros [[[] Hu] Ht]%(reader_stopped _ _ _ Hrun). done. }
    assert (∀ e, ending (check_worker name s input qs) = Raised e →
                 stopped name ∉ trace (check_worker name s input qs)) as Hno.
    { intros e He [Hr _]%Hlast. congruence. }
    split_and!; [by destruct Hrun as (t & _ & ->); eauto| |done|..].
    + split.
      * intros [Hret _]%Hlast. rewrite check_worker_eq in Hret.
        by apply check_loop_returned in Hret.
      * intros (pre & post & s' & -> & Hw & Hd).
        destruct (check_worker_at_sentinel name s s' pre post qs Hw)
          as (t1 & -> & _). rewrite Hd. cbn [trace fst after_done].
        apply elem_of_cons; right. apply elem_of_app; right. repeat constructor.
    + intros pre record rest s' e -> Hw Hn He.
      destruct (check_worker_eval_raises name s s' pre record rest qs e Hw Hn He)
        as (t1 & Heq & _).
      assert (ending (check_worker name s (pre ++ record :: rest) qs) = Raised e)
        as Hend by (by rewrite Heq).
      split; [done|by eapply Hno].
    + intros pre post s' e -> Hw Hd.
      destruct (check_worker_at_sentinel name s s' pre post qs Hw)
        as (t1 & Heq & _). rewrite Hd in Heq.
      assert (ending (check_worker name s (pre ++ VNone :: post) qs) = Raised e)
        as Hend by (by rewrite Heq).
      split_and!; [done|by eapply Hno|].
      rewrite Heq. cbn [trace fst after_done].
      exists (started name :: t1 ++ [Get VNone]). cbn. by rewrite <- app_assoc.
    + intros s' Hw.
      destruct (check_loop_prefix s s' input qs Hw) as (t1 & _ & _ & Heq).
      specialize (Heq []). rewrite app_nil_r in Heq.
      assert (ending (check_worker name s input qs) = Blocked) as Hend
        by (by rewrite check_worker_eq, Heq).
      split; [done|]. intros [Hr _]%Hlast. congruence.
Qed.

(** X3 — Cleanup only after success.  No worker calls [done] on the way
    out of a failure.  A cloud worker calls [done] once when [read] ran to
    its end and not at all when [read] raised.  A store worker and a
    check worker call [done] exactly when they have read [None]; when
    [write] (or [eval]) raises on a record, the records before it having
    gone through, the worker ends with that exception and [done] is not
    called. *)
Theorem done_only_after_success :
  (∀ S (P : Producer S) (D : HasDone S) name (s : S) qs,
     ((read s).2.2 = None → count_done (trace (cloud_worker name s qs)) = 1)
     ∧ (∀ e, (read s).2.2 = Some e →
             count_done (trace (cloud_worker name s qs)) = 0
             ∧ ending (cloud_worker name s qs) = Raised e))
  ∧ (∀ S (C : Consumer S) (D : HasDone S) name (s : S) input,
     let w := store_worker name s input in
     (count_done (trace w) = 1 ↔ Get VNone ∈ trace w)
     ∧ (Get VNone ∉ trace w → count_done (trace w) = 0)
     ∧ (∀ pre record rest s' e,
        input = pre ++ record :: rest → written s pre = Some s' →
        is_none record = false → (write s' record).2 = Some e →
        count_done (trace w) = 0 ∧ ending w = Raised e))
  ∧ (∀ S (T : Transform S) (D : HasDone S) name (s : S) input qs,
     let w := check_worker name s input qs in
     (count_done (trace w) = 1 ↔ Get VNone ∈ trace w)
     ∧ (Get VNone ∉ trace w → count_done (trace w) = 0)
     ∧ (∀ pre record rest s' e,
        input = pre ++ record :: rest → evaluated s pre = Some s' →
        is_none record = false → (eval s' record).2.2 = Some e →
        count_done (trace w) = 0 ∧ ending w = Raised e)).
Proof.
  split_and!.
  - intros S P D name s qs. rewrite cloud_worker_count_done. split.
    + by intros ->.
    + intros e He. rewrite He. split; [done|].
      rewrite cloud_worker_eq. cbn [ending snd]. by rewrite He.
  - intros S C D name s input w. subst w.
    destruct (reader_done_iff _ _ _ (store_worker_run name s input)) as [Hiff Hz].
    split_and!; [done|done|].
    intros pre record rest s' e -> Hw Hn He.
    destruct (store_worker_write_raises name s s' pre record rest e Hw Hn He)
      as (t1 & -> & Hcalm & _).
    split; [|done]. cbn [trace fst].
    change (count_done (t1 ++ [Get record; CallWrite record; Raise e]) = 0).
    by rewrite count_done_app, calm_count_done.
  - intros S T D name s input qs w. subst w.
    destruct (reader_done_iff _ _ _ (check_worker_run name s input qs))
      as [Hiff Hz].
    split_and!; [done|done|].
    intros pre record rest s' e -> Hw Hn He.
    destruct (check_worker_eval_raises name s s' pre record rest qs e Hw Hn He)
      as (t1 & -> & Hcalm).
    split; [|done]. cbn [trace fst].
    change (count_done (t1 ++ [Raise e]) = 0).
    by rewrite count_done_app, calm_count_done.
Qed.

(** *** The claims at work on small plugins *)

(** C8 as stated fails on a queue that never delivers [None]: the store
    plugin raises in none of its methods, nothing is raised in the run,
    and the worker, blocked on [get], logs no stop. *)
Lemma stop_needs_the_sentinel :
  let w := store_worker "store" (Examples.Collector []) [Examples.rec_a] in
  (∀ (s : Examples.collector) record, (write s record).2 = None)
  ∧ (∀ s : Examples.collector, (done s).2 = None)
  ∧ ¬ raised_in (trace w)
  ∧ ending w = Blocked
  ∧ (stopped "store" ∉ trace w)
  ∧ ¬ (stopped "store" ∈ trace w ↔ ¬ raised_in (trace w)).
Proof.
  intros w.
  assert (¬ raised_in (trace w)) as Hnr by no_raise.
  assert (stopped "store" ∉ trace w) as Hns.
  { intros Hin. apply list_elem_of_In in Hin. vm_compute in Hin.
    intuition discriminate. }
  split_and!; [done|done|done|done|done|].
  intros [_ Hstop]. by apply Hns, Hstop.
Qed.

Lemma sentinel_stops_the_worker_witness :
  ∃ t1,
    trace (store_worker "store" (Examples.Collector [])
             [Examples.rec_a; VNone; Examples.rec_b; VNone])
    = started "store" :: t1
        ++ Get VNone :: CallDone :: after_done "store" None
    ∧ gets t1 = [Examples.rec_a] ∧ count_done t1 = 0.
Proof.
  exact (proj2 (proj1 sentinel_stops_the_worker Examples.collector _ _ "store"
                  (Examples.Collector [])
                  [Examples.rec_a; VNone; Examples.rec_b; VNone])
           [Examples.rec_a] [Examples.rec_b; VNone]
           (Examples.Collector [Examples.rec_a]) eq_refl eq_refl).
Defined.

Lemma start_and_stop_logs_witness :
  stopped "store"
    ∈ trace (store_worker "store" (Examples.Collector [])
               [Examples.rec_a; VNone; Examples.rec_b])
  ∧ ending (store_worker "store" (Examples.Leaky 0)
              [Examples.rec_a; VNone; Examples.rec_b])
    = Raised (PluginError "close failed")
  ∧ ending (store_worker "store" (Examples.Quota 1)
              [Examples.rec_a; Examples.rec_b; VNone])
    = Raised (PluginError "full")
  ∧ ending (cloud_worker "cloud" (Examples.Flaky [Examples.rec_a]) [0; 1])
    = Raised (PluginError "api down").
Proof.
  destruct start_and_stop_logs as (Hcloud & Hstore & _).
  split_and!.
  - apply (proj1 (proj2 (Hstore Examples.collector _ _ "store"
                           (Examples.Collector [])
                           [Examples.rec_a; VNone; Examples.rec_b]))).
    by exists [Examples.rec_a], [Examples.rec_b],
              (Examples.Collector [Examples.rec_a]).
  - destruct (Hstore Examples.leaky _ _ "store" (Examples.Leaky 0)
                [Examples.rec_a; VNone; Examples.rec_b])
      as (_ & _ & _ & _ & Hdone & _).
    apply (Hdone [Examples.rec_a] [Examples.rec_b] (Examples.Leaky 1)
             (PluginError "close failed") eq_refl eq_refl eq_refl).
  - destruct (Hstore Examples.quota _ _ "store" (Examples.Quota 1)
                [Examples.rec_a; Examples.rec_b; VNone])
      as (_ & _ & _ & Hwrite & _).
    apply (Hwrite [Examples.rec_a] Examples.rec_b [VNone] (Examples.Quota 0)
             (PluginError "full") eq_refl eq_refl eq_refl eq_refl).
  - destruct (Hcloud Examples.flaky _ _ "cloud"
                (Examples.Flaky [Examples.rec_a]) [0; 1])
      as (_ & _ & _ & Hread & _).
    apply (Hread (PluginError "api down") eq_refl).
Defined.

Lemma done_only_after_success_witness :
  let w := store_worker "store" (Examples.Quota 1)
             [Examples.rec_a; Examples.rec_b; VNone] in
  count_done (trace w) = 0 ∧ ending w = Raised (PluginError "full").
Proof.
  destruct (proj1 (proj2 done_only_after_success) Examples.quota _ _ "store"
              (Examples.Quota 1) [Examples.rec_a; Examples.rec_b; VNone])
    as (_ & _ & Hwrite).
  apply (Hwrite [Examples.rec_a] Examples.rec_b [VNone] (Examples.Quota 0)
           (PluginError "full") eq_refl eq_refl eq_refl eq_refl).
Defined.

End WorkerRuns.

(** * More on the TLS event plugin *)

Module TLSMore.
Import Py PyFloat Workers AzWebAppTLSEvent WorkersFacts TLSFacts WorkersMore.
Local Open Scope list_scope.

Section Plugin.
Context (friendly_string : value → result value).
Context (py_str : heap → value → string).

Abbreviation get_event := (_get_azure_web_app_tls_event friendly_string py_str).
Abbreviation body := (eval_body friendly_string py_str).
Abbreviation tls_eval := (AzWebAppTLSEvent.eval friendly_string py_str).

(** X5 — Applicability filter.  On a record whose [ext] bucket has a
    [record_type] other than the string [web_app_config] (another string,
    a value that is no string, or no [record_type] at all), [eval] yields
    nothing, raises nothing and leaves the store as it is, whatever
    [min_tls_version] and the [com] bucket are. *)
Theorem other_record_types_skipped thr (h : heap) record d ext :
  is_record h record d → has_bucket h d "ext" ext →
  ext !! "record_type" ≠ Some (VStr web_app_config) →
  tls_eval (Plugin thr h) record = (Plugin thr h, ([], None)).
Proof.
  intros (l & -> & Hl) (le & Hext & Hle) Hrt.
  rewrite eval_eq, (eval_body_record _ _ _ _ _ _ Hl), (field_some _ _ _ Hext).
  cbn [is_none]. unfold dict_get. rewrite Hle.
  assert (ne_str (default VNone (ext !! "record_type")) web_app_config = true)
    as ->; [|done].
  destruct (ext !! "record_type") as [[| | | |s|]|]; try done. cbn.
  apply negb_true_iff, String.eqb_neq. congruence.
Qed.

(** X6 — An [ext] that is no bucket.  On a record (a dict) whose [ext]
    key holds [None], [eval] yields nothing and raises nothing, as for a
    missing key; when it holds a number, a boolean or a string, [eval]
    raises [AttributeError].  A record that is no dict at all makes [eval]
    raise [AttributeError] too.  The store is as it was in every case. *)
Theorem ext_must_be_a_bucket thr (h : heap) :
  (∀ record d,
     is_record h record d → d !! "ext" = Some VNone →
     tls_eval (Plugin thr h) record = (Plugin thr h, ([], None)))
  ∧ (∀ record d v,
     is_record h record d → d !! "ext" = Some v →
     v ≠ VNone → (∀ l, v ≠ VRef l) →
     tls_eval (Plugin thr h) record = (Plugin thr h, ([], Some AttributeError)))
  ∧ (∀ record,
     (∀ l, record ≠ VRef l) →
     tls_eval (Plugin thr h) record = (Plugin thr h, ([], Some AttributeError))).
Proof.
  split_and!.
  - intros record d (l & -> & Hl) Hext.
    by rewrite eval_eq, (eval_body_record _ _ _ _ _ _ Hl), (field_some _ _ _ Hext).
  - intros record d v (l & -> & Hl) Hext Hv Href.
    rewrite eval_eq, (eval_body_record _ _ _ _ _ _ Hl), (field_some _ _ _ Hext).
    destruct v as [| | | | |l']; try done. by destruct (Href l').
  - intros record Hno. rewrite eval_eq, eval_body_not_dict; [done|].
    intros l ->. by destruct (Hno l).
Qed.

Lemma flt_nan x : flt S754_nan x = false ∧ flt x S754_nan = false.
Proof. by destruct x. Qed.

(** X7 — Not below the threshold, no event.  On a record whose [ext]
    bucket has record type [web_app_config] and a [min_tls_version] that
    [float] accepts, when the parsed version is not strictly below the
    plugin's threshold (equal, greater, or either is a NaN) [eval]
    yields nothing, raises nothing and leaves the store as it is, with or
    without a [com] bucket. *)
Theorem no_event_unless_below thr (h : heap) record d ext x :
  is_record h record d → has_bucket h d "ext" ext →
  ext !! "record_type" = Some (VStr web_app_config) →
  py_float (field ext "min_tls_version") = Ok x →
  (flt x thr = false →
   tls_eval (Plugin thr h) record = (Plugin thr h, ([], None)))
  ∧ (x = S754_nan ∨ thr = S754_nan →
     tls_eval (Plugin thr h) record = (Plugin thr h, ([], None))).
Proof.
  intros Hrec Hext Hrt Hx.
  assert (flt x thr = false →
          tls_eval (Plugin thr h) record = (Plugin thr h, ([], None))) as Hno.
  { intros Hlt.
    by rewrite eval_eq, (eval_body_config _ _ _ _ _ _ _ Hrec Hext Hrt), Hx, Hlt. }
  split; [done|]. intros [->| ->]; apply Hno; apply flt_nan.
Qed.

(** *** The event record in full *)

(** The event built from a [com] dict and an [ext] dict, object by
    object. *)
Lemma get_event_full thr (h : heap) lc com le ext c :
  h !! lc = Some com → h !! le = Some ext →
  friendly_string (field com "cloud_type") = Ok c →
  ∃ h' lev lx lcom,
    get_event (VRef lc) (VRef le) thr h = (Ok [VRef lev], h')
    ∧ h ⊆ h'
    ∧ h !! lev = None ∧ h' !! lx ≠ None ∧ h' !! lcom ≠ None
    ∧ h' !! lev = Some (<["ext" := VRef lx]> (<["com" := VRef lcom]> ∅))
    ∧ h' !! lcom
      = Some (<["cloud_type" := field com "cloud_type"]>
              (<["record_type" := VStr web_app_tls_event]>
              (<["reference" := field com "reference"]>
              (<["description" :=
                   VStr (py_str h c +:+ " web app "
                         +:+ py_str h (field com "reference")
                         +:+ " has insecure minimum TLS version.")]>
              (<["recommendation" :=
                   VStr ("Check " +:+ py_str h c +:+ " web app "
                         +:+ py_str h (field com "reference")
                         +:+ " and ensure the minimum TLS version is set to "
                         +:+ py_str h (VFloat thr) +:+ ".")]> ∅))))).
Proof.
  intros Hc He Hf. unfold _get_azure_web_app_tls_event.
  rewrite bind_eq, (get_dict _ _ _ _ Hc), bind_eq. unfold lift at 1. rewrite Hf.
  rewrite bind_eq, (get_dict _ _ _ _ Hc).
  do 3 (rewrite bind_eq; unfold format1 at 1).
  rewrite bind_eq, new_dict_eq.
  set (ovr := {["record_type" := VStr web_app_tls_event]} : pydict).
  pose proof (alloc_subseteq h ovr) as Hs1.
  pose proof (alloc_lookup h ovr) as Hl1.
  set (l1 := (alloc h ovr).1) in *. set (h1 := (alloc h ovr).2) in *.
  rewrite bind_eq. unfold merge_dicts at 1.
  rewrite (lookup_weaken _ _ _ _ He Hs1), Hl1, new_dict_eq.
  pose proof (alloc_subseteq h1 (ovr ∪ ext)) as Hs2.
  pose proof (alloc_lookup h1 (ovr ∪ ext)) as Hl2.
  set (l2 := (alloc h1 (ovr ∪ ext)).1) in *.
  set (h2 := (alloc h1 (ovr ∪ ext)).2) in *.
  assert (h ⊆ h2) as Hs02 by (by etrans).
  rewrite bind_eq, (get_dict _ _ _ _ (lookup_weaken _ _ _ _ Hc Hs02)).
  rewrite bind_eq, new_dict_eq.
  match goal with |- context [alloc h2 ?d] => set (dcom := d) end.
  pose proof (alloc_subseteq h2 dcom) as Hs3.
  pose proof (alloc_lookup h2 dcom) as Hl3.
  set (l3 := (alloc h2 dcom).1) in *. set (h3 := (alloc h2 dcom).2) in *.
  rewrite bind_eq, new_dict_eq.
  match goal with |- context [alloc h3 ?d] => set (dev := d) end.
  pose proof (alloc_fresh h3 dev) as Hf4.
  pose proof (alloc_subseteq h3 dev) as Hs4.
  pose proof (alloc_lookup h3 dev) as Hl4.
  set (l4 := (alloc h3 dev).1) in *. set (h4 := (alloc h3 dev).2) in *.
  assert (h ⊆ h3) as Hs03 by (by etrans).
  exists h4, l4, l2, l3. split_and!; try done.
  - by etrans.
  - destruct (h !! l4) as [x|] eqn:Hx; [|done].
    by rewrite (lookup_weaken _ _ _ _ Hx Hs03) in Hf4.
  - rewrite (lookup_weaken _ _ _ _ Hl2 (transitivity Hs3 Hs4)). done.
  - by rewrite (lookup_weaken _ _ _ _ Hl3 Hs4).
  - by rewrite (lookup_weaken _ _ _ _ Hl3 Hs4).
Qed.

(** X8 — What the event record holds.  On an applicable record below the
    threshold, with a [com] bucket on whose cloud type
    [util.friendly_string] returns [c]: the event record is a new dict
    with the two keys [ext] and [com], both buckets being dicts of the
    store; the [com] bucket holds exactly [cloud_type] and [reference] as
    in the source [com] bucket, [record_type] set to [web_app_tls_event],
    a description and a recommendation built from the text of [c], of the
    reference and of the threshold. *)
Theorem event_record_contents thr (h : heap) record d ext x com c :
  is_record h record d → has_bucket h d "ext" ext →
  ext !! "record_type" = Some (VStr web_app_config) →
  py_float (field ext "min_tls_version") = Ok x → flt x thr = true →
  has_bucket h d "com" com →
  friendly_string (field com "cloud_type") = Ok c →
  ∃ h' lev lx lcom,
    tls_eval (Plugin thr h) record = (Plugin thr h', ([VRef lev], None))
    ∧ h !! lev = None ∧ h' !! lx ≠ None
    ∧ h' !! lev = Some (<["ext" := VRef lx]> (<["com" := VRef lcom]> ∅))
    ∧ h' !! lcom
      = Some (<["cloud_type" := field com "cloud_type"]>
              (<["record_type" := VStr web_app_tls_event]>
              (<["reference" := field com "reference"]>
              (<["description" :=
                   VStr (py_str h c +:+ " web app "
                         +:+ py_str h (field com "reference")
                         +:+ " has insecure minimum TLS version.")]>
              (<["recommendation" :=
                   VStr ("Check " +:+ py_str h c +:+ " web app "
                         +:+ py_str h (field com "reference")
                         +:+ " and ensure the minimum TLS version is set to "
                         +:+ py_str h (VFloat thr) +:+ ".")]> ∅))))).
Proof.
  intros Hrec Hext Hrt Hx Hlt (lc & Hcom & Hlc) Hf.
  rewrite eval_eq, (eval_body_config _ _ _ _ _ _ _ Hrec Hext Hrt), Hx, Hlt.
  destruct Hext as (le & Hext & Hle).
  rewrite (field_some _ _ _ Hcom), (field_some _ _ _ Hext).
  destruct (get_event_full thr h lc com le ext c Hlc Hle Hf)
    as (h' & lev & lx & lcom & -> & _ & Hnew & Hlx & _ & Hev & Hdcom).
  by exists h', lev, lx, lcom.
Qed.

(** *** What [eval] leaves behind *)

Lemma get_event_cases thr (h : heap) com le ext :
  h !! le = Some ext →
  (∃ e, get_event com (VRef le) thr h = (Err e, h))
  ∨ (∃ lc dcom c, com = VRef lc ∧ h !! lc = Some dcom
                  ∧ friendly_string (field dcom "cloud_type") = Ok c).
Proof.
  intros Hle.
  destruct (dict_get h com "cloud_type") as [ct|e] eqn:Hct.
  - apply dict_get_ok in Hct as (lc & dcom & -> & Hlc & ->).
    destruct (friendly_string (field dcom "cloud_type")) as [c|e] eqn:Hf.
    + right. by exists lc, dcom, c.
    + left. exists e. unfold _get_azure_web_app_tls_event.
      rewrite bind_eq, (get_dict _ _ _ _ Hlc), bind_eq. unfold lift at 1.
      by rewrite Hf.
  - left. exists e. unfold _get_azure_web_app_tls_event.
    rewrite bind_eq. unfold get_ at 1. by rewrite Hct.
Qed.

(** Every run of the body: an exception or nothing yielded, the store
    untouched; or one event, the store extended. *)
Lemma eval_body_cases thr (h : heap) record :
  (∃ e, body thr record h = (Err e, h))
  ∨ body thr record h = (Ok [], h)
  ∨ (∃ lev h', body thr record h = (Ok [VRef lev], h')
               ∧ h ⊆ h' ∧ h !! lev = None).
Proof.
  destruct record as [| | | | |l];
    try (left; exists AttributeError; by apply eval_body_not_dict).
  destruct (h !! l) as [d|] eqn:Hl.
  2:{ left. exists AttributeError. apply eval_body_not_dict.
      by intros ? [= <-]. }
  rewrite (eval_body_record _ _ _ _ _ _ Hl).
  destruct (is_none (field d "ext")); [by auto|].
  destruct (dict_get h (field d "ext") "record_type") as [rt|e] eqn:Hrt;
    [|by eauto].
  apply dict_get_ok in Hrt as (le & ext & Hext & Hle & ->). rewrite Hext.
  destruct (ne_str _ web_app_config); [by auto|].
  unfold dict_get. rewrite Hle.
  destruct (py_float _) as [x|e]; [|by eauto].
  destruct (flt x thr); [|by auto].
  destruct (get_event_cases thr h (field d "com") le ext Hle)
    as [[e He]|(lc & com & c & Hcom & Hlc & Hf)]; [by eauto|].
  rewrite Hcom. do 2 right.
  destruct (get_event_ok friendly_string py_str thr h lc com le ext c Hlc Hle Hf)
    as (h' & lev & lx & lcom & dcom & -> & Hsub & Hnew & _).
  by exists lev, h'.
Qed.

(** X9 — [eval] keeps what it finds.  For every plugin and every value
    passed as the record: the threshold of the plugin is unchanged; every
    dict of the store is as it was (the record and its buckets included);
    at most one event is yielded, and none together with an exception;
    and unless an event is yielded the plugin, store included, is exactly
    as before the call. *)
Theorem eval_keeps_the_store (p : plugin) record :
  _min_tls_version (tls_eval p record).1 = _min_tls_version p
  ∧ store p ⊆ store (tls_eval p record).1
  ∧ (length (tls_eval p record).2.1 ≤ 1)%nat
  ∧ ((tls_eval p record).2.1 = [] → (tls_eval p record).1 = p)
  ∧ (is_Some (tls_eval p record).2.2 → (tls_eval p record).2.1 = []).
Proof.
  destruct p as [thr h]. rewrite eval_eq.
  destruct (eval_body_cases thr h record)
    as [[e ->]|[->|(lev & h' & -> & Hsub & _)]]; cbn; split_and!; try done.
  all: try lia.
  all: by intros [? ?].
Qed.

(** *** Calling [eval] again, and running it in a check worker *)

Lemma eval_insecure thr (h : heap) record d ext x com c :
  is_record h record d → has_bucket h d "ext" ext →
  ext !! "record_type" = Some (VStr web_app_config) →
  py_float (field ext "min_tls_version") = Ok x → flt x thr = true →
  has_bucket h d "com" com →
  friendly_string (field com "cloud_type") = Ok c →
  ∃ h' lev,
    tls_eval (Plugin thr h) record = (Plugin thr h', ([VRef lev], None))
    ∧ h ⊆ h' ∧ h !! lev = None ∧ is_Some (h' !! lev).
Proof.
  intros Hrec Hext Hrt Hx Hlt (lc & Hcom & Hlc) Hf.
  rewrite eval_eq, (eval_body_config _ _ _ _ _ _ _ Hrec Hext Hrt), Hx, Hlt.
  destruct Hext as (le & Hext & Hle).
  rewrite (field_some _ _ _ Hcom), (field_some _ _ _ Hext).
  destruct (get_event_ok friendly_string py_str thr h lc com le ext c Hlc Hle Hf)
    as (h' & lev & lx & lcom & dcom & -> & Hsub & Hnew & _ & _ & Hev & _).
  exists h', lev. split_and!; [done|done|done|by eexists].
Qed.

Lemma is_record_weaken (h h' : heap) record d :
  h ⊆ h' → is_record h record d → is_record h' record d.
Proof. intros Hsub (l & -> & Hl). exists l. eauto using lookup_weaken. Qed.

Lemma has_bucket_weaken (h h' : heap) d k b :
  h ⊆ h' → has_bucket h d k b → has_bucket h' d k b.
Proof. intros Hsub (l & Hk & Hl). exists l. eauto using lookup_weaken. Qed.

(** X10 — [eval] can be called again.  On an applicable record below
    the threshold, with its [com] bucket, a second call of [eval] on the
    same record, made on the plugin the first call left, yields an event
    again: a new event record, the one of the first call still in the
    store. *)
Theorem eval_again thr (h : heap) record d ext x com c :
  is_record h record d → has_bucket h d "ext" ext →
  ext !! "record_type" = Some (VStr web_app_config) →
  py_float (field ext "min_tls_version") = Ok x → flt x thr = true →
  has_bucket h d "com" com →
  friendly_string (field com "cloud_type") = Ok c →
  ∃ p1 lev1 p2 lev2,
    tls_eval (Plugin thr h) record = (p1, ([VRef lev1], None))
    ∧ tls_eval p1 record = (p2, ([VRef lev2], None))
    ∧ lev1 ≠ lev2
    ∧ is_Some (store p2 !! lev1) ∧ is_Some (store p2 !! lev2).
Proof.
  intros Hrec Hext Hrt Hx Hlt Hcom Hf.
  destruct (eval_insecure thr h record d ext x com c)
    as (h1 & lev1 & Hev1 & Hsub1 & Hnew1 & [d1 Hd1]); try done.
  destruct (eval_insecure thr h1 record d ext x com c)
    as (h2 & lev2 & Hev2 & Hsub2 & Hnew2 & Hd2);
    eauto using is_record_weaken, has_bucket_weaken.
  exists (Plugin thr h1), lev1, (Plugin thr h2), lev2.
  split_and!; [done|done| | |done].
  - intros ->. congruence.
  - exists d1. by eapply lookup_weaken.
Qed.

Lemma quiet_no_raise_fanout qs ys e : Raise e ∉ fanout qs ys.
Proof. apply quiet_no_raise, quiet_fanout. Qed.

(** X11 — The plugin in a check worker.  A check worker with the TLS
    plugin whose queue delivers an applicable record below the threshold
    (with its [com] bucket), then a record of another type, then [None]:
    [eval] is called on the two records, exactly one event record is put,
    once into each output queue, [done] is called once, and the worker
    returns with its stop logged. *)
Theorem check_worker_with_tls_plugin thr (h : heap) name
    record d ext x com c other d' ext' rest qs :
  is_record h record d → has_bucket h d "ext" ext →
  ext !! "record_type" = Some (VStr web_app_config) →
  py_float (field ext "min_tls_version") = Ok x → flt x thr = true →
  has_bucket h d "com" com →
  friendly_string (field com "cloud_type") = Ok c →
  is_record h other d' → has_bucket h d' "ext" ext' →
  ext' !! "record_type" ≠ Some (VStr web_app_config) →
  let run := check_worker (H := transform friendly_string py_str) name
               (Plugin thr h) (record :: other :: VNone :: rest) qs in
  ∃ ev,
    all_puts (trace run) = replicated qs [ev]
    ∧ evals (trace run) = [record; other]
    ∧ count_done (trace run) = 1%nat
    ∧ ending run = Returned tt
    ∧ stopped name ∈ trace run.
Proof.
  intros Hrec Hext Hrt Hx Hlt Hcom Hf Hrec' Hext' Hrt' run.
  destruct (eval_insecure thr h record d ext x com c)
    as (h1 & lev & Hev1 & Hsub & _); try done.
  assert (tls_eval (Plugin thr h1) other = (Plugin thr h1, ([], None))) as Hev2.
  { eapply other_record_types_skipped;
      eauto using is_record_weaken, has_bucket_weaken. }
  assert (is_none record = false) as Hn by (by destruct Hrec as (? & -> & _)).
  assert (is_none other = false) as Hn' by (by destruct Hrec' as (? & -> & _)).
  set (input := record :: other :: VNone :: rest) in *.
  assert (trace (check_loop (H := transform friendly_string py_str)
                   (Plugin thr h) input qs)
          = Get record :: CallEval record :: fanout qs [VRef lev]
              ++ Get other :: CallEval other :: fanout qs []
              ++ [Get VNone; CallDone]) as Hloop.
  { subst input. rewrite check_loop_cons by done.
    change (Workers.eval (Plugin thr h) record)
      with (tls_eval (Plugin thr h) record).
    rewrite Hev1. cbn [fst snd]. rewrite check_loop_cons by done.
    change (Workers.eval (Plugin thr h1) other)
      with (tls_eval (Plugin thr h1) other).
    rewrite Hev2. cbn [fst snd]. by rewrite check_loop_sentinel. }
  pose proof (check_worker_run (H := transform friendly_string py_str)
                name (Plugin thr h) input qs) as Hrun.
  fold run in Hrun.
  assert (trace run
          = started name :: trace (check_loop (H := transform friendly_string py_str)
                                     (Plugin thr h) input qs)
              ++ stop_log name (ending (check_loop
                                          (H := transform friendly_string py_str)
                                          (Plugin thr h) input qs))) as Ht
    by apply check_worker_trace.
  rewrite Hloop in Ht.
  assert (¬ raised_in (trace run)) as Hnr.
  { intros [e Hin]. rewrite Ht in Hin.
    split_in Hin; try done; try (by apply quiet_no_raise_fanout in Hin).
    destruct (ending _); split_in Hin; done. }
  assert (VNone ∈ input) as Hin by (subst input; repeat constructor).
  destruct (reader_returned _ _ _ Hrun Hin Hnr) as [[] Hret].
  exists (VRef lev). split_and!.
  - subst run. rewrite check_worker_all_puts. subst input.
    cbn [produced]. rewrite Hn.
    change (Workers.eval (Plugin thr h) record)
      with (tls_eval (Plugin thr h) record).
    rewrite Hev1. cbn [fst snd]. rewrite Hn'.
    change (Workers.eval (Plugin thr h1) other)
      with (tls_eval (Plugin thr h1) other).
    by rewrite Hev2.
  - rewrite Ht, evals_reader.
    change (evals (Get record :: CallEval record :: ?t))
      with (record :: evals t).
    rewrite evals_app, evals_fanout. cbn [app].
    change (evals (Get other :: CallEval other :: ?t))
      with (other :: evals t).
    by rewrite evals_app, evals_fanout.
  - rewrite Ht, count_done_reader.
    change (count_done (Get record :: CallEval record :: ?t))
      with (count_done t).
    rewrite count_done_app, count_done_fanout.
    change (count_done (Get other :: CallEval other :: ?t))
      with (count_done t).
    by rewrite count_done_app, count_done_fanout.
  - done.
  - destruct (reader_stop_iff _ _ _ Hrun Hin) as [_ Hstop]. by apply Hstop.
Qed.

End Plugin.

(** *** The properties at work on web app records *)

Ltac by_vm := vm_compute; reflexivity.

Lemma other_record_types_skipped_witness :
  let p := Plugin default_min_tls_version Examples.other_store in
  AzWebAppTLSEvent.eval Examples.display Examples.text p Examples.the_record
  = (p, ([], None)).
Proof.
  apply (other_record_types_skipped Examples.display Examples.text
           default_min_tls_version Examples.other_store Examples.the_record
           Examples.app_record
           (<["record_type" := VStr "storage_account_config"]>
            (<["min_tls_version" := VStr "1.0"]> ∅))).
  - shape 1%positive.
  - shape 2%positive.
  - intros Heq. vm_compute in Heq. discriminate Heq.
Defined.

Lemma ext_must_be_a_bucket_witness :
  (let p := Plugin default_min_tls_version Examples.none_ext_store in
   AzWebAppTLSEvent.eval Examples.display Examples.text p Examples.the_record
   = (p, ([], None)))
  ∧ (let p := Plugin default_min_tls_version Examples.text_ext_store in
     AzWebAppTLSEvent.eval Examples.display Examples.text p Examples.the_record
     = (p, ([], Some AttributeError)))
  ∧ (let p := Plugin default_min_tls_version Examples.text_ext_store in
     AzWebAppTLSEvent.eval Examples.display Examples.text p (VStr "record")
     = (p, ([], Some AttributeError))).
Proof.
  split_and!.
  - apply (proj1 (ext_must_be_a_bucket Examples.display Examples.text
                    default_min_tls_version Examples.none_ext_store)
             Examples.the_record (<["ext" := VNone]> ∅));
      [shape 1%positive|by_vm].
  - apply (proj1 (proj2 (ext_must_be_a_bucket Examples.display Examples.text
                           default_min_tls_version Examples.text_ext_store))
             Examples.the_record (<["ext" := VStr "n/a"]> ∅) (VStr "n/a"));
      [shape 1%positive|by_vm|discriminate|discriminate].
  - apply (proj2 (proj2 (ext_must_be_a_bucket Examples.display Examples.text
                           default_min_tls_version Examples.text_ext_store))).
    discriminate.
Defined.

Lemma no_event_unless_below_witness :
  (let p := Plugin default_min_tls_version (Examples.app_store (VStr "nan")) in
   AzWebAppTLSEvent.eval Examples.display Examples.text p Examples.the_record
   = (p, ([], None)))
  ∧ (let p := Plugin default_min_tls_version (Examples.app_store (VStr "1.2")) in
     AzWebAppTLSEvent.eval Examples.display Examples.text p Examples.the_record
     = (p, ([], None))).
Proof.
  split.
  - apply (proj2 (no_event_unless_below Examples.display Examples.text
                    default_min_tls_version (Examples.app_store (VStr "nan"))
                    Examples.the_record Examples.app_record
                    (Examples.ext_bucket (VStr "nan")) S754_nan
                    ltac:(shape 1%positive) ltac:(shape 2%positive)
                    ltac:(by_vm) ltac:(by_vm))).
    by left.
  - apply (proj1 (no_event_unless_below Examples.display Examples.text
                    default_min_tls_version (Examples.app_store (VStr "1.2"))
                    Examples.the_record Examples.app_record
                    (Examples.ext_bucket (VStr "1.2")) default_min_tls_version
                    ltac:(shape 1%positive) ltac:(shape 2%positive)
                    ltac:(by_vm) ltac:(by_vm))).
    by_vm.
Defined.

Lemma event_record_contents_witness :
  ∃ h' lev lcom dcom,
    AzWebAppTLSEvent.eval Examples.display Examples.text
      (Plugin default_min_tls_version (Examples.app_store (VStr "1.0")))
      Examples.the_record
    = (Plugin default_min_tls_version h', ([VRef lev], None))
    ∧ h' !! lcom = Some dcom
    ∧ dcom !! "cloud_type" = Some (VStr "azure")
    ∧ dcom !! "reference" = Some (VStr "app1")
    ∧ dcom !! "description"
      = Some (VStr "azure web app app1 has insecure minimum TLS version.").
Proof.
  destruct (event_record_contents Examples.display Examples.text
              default_min_tls_version (Examples.app_store (VStr "1.0"))
              Examples.the_record Examples.app_record
              (Examples.ext_bucket (VStr "1.0"))
              (S754_finite false 4503599627370496 (-52))
              Examples.com_bucket (VStr "azure")
              ltac:(shape 1%positive) ltac:(shape 2%positive)
              ltac:(by_vm) ltac:(by_vm) ltac:(by_vm)
              ltac:(shape 3%positive) ltac:(by_vm))
    as (h' & lev & lx & lcom & Hev & _ & _ & _ & Hcom).
  eexists h', lev, lcom, _. split_and!; [exact Hev|exact Hcom|by_vm..].
Defined.

Lemma eval_keeps_the_store_witness :
  let p := Plugin default_min_tls_version Examples.extless_store in
  (AzWebAppTLSEvent.eval Examples.display Examples.text p Examples.the_record).1
  = p.
Proof.
  intros p.
  destruct (eval_keeps_the_store Examples.display Examples.text p
              Examples.the_record) as (_ & _ & _ & Hsame & _).
  apply Hsame. by_vm.
Defined.

Lemma eval_again_witness :
  ∃ p1 lev1 p2 lev2,
    AzWebAppTLSEvent.eval Examples.display Examples.text
      (Plugin default_min_tls_version (Examples.app_store (VStr "1.0")))
      Examples.the_record
    = (p1, ([VRef lev1], None))
    ∧ AzWebAppTLSEvent.eval Examples.display Examples.text p1 Examples.the_record
      = (p2, ([VRef lev2], None))
    ∧ lev1 ≠ lev2
    ∧ is_Some (store p2 !! lev1) ∧ is_Some (store p2 !! lev2).
Proof.
  exact (eval_again Examples.display Examples.text
           default_min_tls_version (Examples.app_store (VStr "1.0"))
           Examples.the_record Examples.app_record
           (Examples.ext_bucket (VStr "1.0"))
           (S754_finite false 4503599627370496 (-52))
           Examples.com_bucket (VStr "azure")
           ltac:(shape 1%positive) ltac:(shape 2%positive)
           ltac:(by_vm) ltac:(by_vm) ltac:(by_vm)
           ltac:(shape 3%positive) ltac:(by_vm)).
Defined.

Lemma check_worker_with_tls_plugin_witness :
  let run := check_worker (H := transform Examples.display Examples.text)
               "check" (Plugin default_min_tls_version Examples.two_records)
               [Examples.the_record; VRef 4%positive; VNone] [0; 1]%nat in
  ∃ ev,
    all_puts (trace run) = replicated [0; 1]%nat [ev]
    ∧ evals (trace run) = [Examples.the_record; VRef 4%positive]
    ∧ count_done (trace run) = 1%nat
    ∧ ending run = Returned tt
    ∧ stopped "check" ∈ trace run.
Proof.
  exact (check_worker_with_tls_plugin Examples.display Examples.text
           default_min_tls_version Examples.two_records "check"
           Examples.the_record Examples.app_record
           (Examples.ext_bucket (VStr "1.0"))
           (S754_finite false 4503599627370496 (-52))
           Examples.com_bucket (VStr "azure")
           (VRef 4%positive) (<["ext" := VRef 5%positive]> ∅)
           (<["record_type" := VStr "other"]> ∅) [] [0; 1]%nat
           ltac:(shape 1%positive) ltac:(shape 2%positive)
           ltac:(by_vm) ltac:(by_vm) ltac:(by_vm)
           ltac:(shape 3%positive) ltac:(by_vm)
           ltac:(shape 4%positive) ltac:(shape 5%positive)
           ltac:(intros Heq; vm_compute in Heq; discriminate Heq)).
Defined.

End TLSMore.
